(** * OFS funscript timeline: a shallow embedding of Funscript.cpp

    The member functions of [Funscript] that edit and query the action
    timeline are embedded as functions over an explicit [Funscript] state
    record.  Vectors are lists, [int32_t] values are [Z] with the wrap-around
    written out, [float] values are IEEE-754 binary32 numbers built on the
    standard library's [SpecFloat]. *)

From Stdlib Require Import ZArith List Bool Lia Sorted Permutation.
From Stdlib Require Import Floats.SpecFloat.
Import ListNotations.
Open Scope Z_scope.

(** ** Machine integers *)

Module Int32.

Definition modulus : Z := 2 ^ 32.
Definition half_modulus : Z := 2 ^ 31.
Definition max_signed : Z := half_modulus - 1.
Definition min_signed : Z := - half_modulus.

(** Two's complement reduction of a mathematical integer to [int32_t]. *)
Definition wrap (z : Z) : Z :=
  (z + half_modulus) mod modulus - half_modulus.

(** Conversion to [uint32_t]. *)
Definition to_unsigned (z : Z) : Z := z mod modulus.

Definition in_range (z : Z) : Prop := min_signed <= z <= max_signed.

Definition sub (a b : Z) : Z := wrap (a - b).

(** [std::abs] on [int32_t]. *)
Definition abs (a : Z) : Z := wrap (Z.abs a).

End Int32.

(** ** Single precision floats *)

Module Float32.

Definition prec : Z := 24.
Definition emax : Z := 128.

Definition float : Type := spec_float.

(** [(float)z] for an integer [z]: round to nearest, ties to even. *)
Definition of_int (z : Z) : float := binary_normalize prec emax z 0 false.

Definition add : float -> float -> float := SFadd prec emax.
Definition mul : float -> float -> float := SFmul prec emax.
Definition div : float -> float -> float := SFdiv prec emax.

(** [std::round]: nearest integer, halfway cases away from zero.  The
    magnitude of the result never exceeds the mantissa of the argument, so
    the conversion back to [float] is exact. *)
Definition round (x : float) : float :=
  match x with
  | S754_finite s m e =>
      if 0 <=? e then x
      else
        let d := 2 ^ (- e) in
        let q := Z.pos m / d in
        let q' := if d <=? 2 * (Z.pos m mod d) then q + 1 else q in
        binary_normalize prec emax (cond_Zopp s q') 0 s
  | _ => x
  end.

(** Conversion of a [float] to an integer: truncation toward zero.  The
    conversion of NaN, of an infinity, or of a value outside the target
    type is undefined in C++; the embedding returns the mathematical
    truncation for every finite value and [0] otherwise. *)
Definition to_int (x : float) : Z :=
  match x with
  | S754_finite s m e =>
      cond_Zopp s (if 0 <=? e then Z.pos m * 2 ^ e else Z.pos m / 2 ^ (- e))
  | _ => 0
  end.

(** Conversion of a [float] to [int32_t], as in the assignment of a
    [float] to an [int32_t] member: the truncation when it fits, and
    [None] where C++ leaves the conversion undefined (NaN, an infinity, a
    truncation outside the range of [int32_t]). *)
Definition to_int32 (x : float) : option Z :=
  match x with
  | S754_zero _ => Some 0
  | S754_finite _ _ _ =>
      let z := to_int x in
      if (Int32.min_signed <=? z) && (z <=? Int32.max_signed) then Some z
      else None
  | _ => None
  end.

End Float32.

(** ** Actions *)

(** Modelled from the spec: the declaration of [FunscriptAction]
    (Funscript.h) is missing.  "Action: { timestamp: integer milliseconds,
    position: integer 0..100 }"; Funscript.cpp reads and writes the fields
    [at] and [pos].  [at] is a reserved word, hence [at_]. *)
Record FunscriptAction : Type := mkAction { at_ : Z; pos : Z }.

(** Modelled from the spec: [operator==] of [FunscriptAction] (Funscript.h)
    is missing.  "Full equality compares both fields." *)
Definition action_eqb (a b : FunscriptAction) : bool :=
  (at_ a =? at_ b) && (pos a =? pos b).

(** ** Vector algorithms of the C++ standard library *)

Section Vector.
Context {A : Type}.

(** [std::find_if(first, last, p) - first]: the index of the first element
    satisfying [p], or the length when there is none ([end()]). *)
Fixpoint find_if (p : A -> bool) (v : list A) : nat :=
  match v with
  | [] => 0%nat
  | x :: v' => if p x then 0%nat else S (find_if p v')
  end.

(** [v.erase(v.begin() + i)]: one element is removed. *)
Definition erase_at (i : nat) (v : list A) : list A :=
  firstn i v ++ skipn (S i) v.

(** [v.insert(v.begin() + i, x)]. *)
Definition insert_at (i : nat) (x : A) (v : list A) : list A :=
  firstn i v ++ x :: skipn i v.

(** [v[i] = x]. *)
Fixpoint assign_at (i : nat) (x : A) (v : list A) {struct v} : list A :=
  match v, i with
  | [], _ => []
  | _ :: v', O => x :: v'
  | y :: v', S i' => y :: assign_at i' x v'
  end.

(** [v.back()] ([None] on an empty vector, where C++ is undefined). *)
Fixpoint back (v : list A) : option A :=
  match v with
  | [] => None
  | [x] => Some x
  | _ :: v' => back v'
  end.

(** [std::remove_if]: a read cursor walks the vector, every element that
    does not satisfy [p] is assigned to the slot under the write cursor
    [first].  [pending] holds the elements the read cursor has not visited
    yet (writes never reach them).  The slots from the final write cursor
    on keep whatever they held: for a trivially copyable element the
    move assignment is a copy. *)
Fixpoint remove_if_loop (p : A -> bool) (v : list A) (first : nat)
         (pending : list A) : list A * nat :=
  match pending with
  | [] => (v, first)
  | x :: pending' =>
      if p x then remove_if_loop p v first pending'
      else remove_if_loop p (assign_at first x v) (S first) pending'
  end.

(** Returns the vector after the pass and the returned iterator, as an
    index. *)
Definition remove_if (p : A -> bool) (v : list A) : list A * nat :=
  remove_if_loop p v 0%nat v.

(** [v.erase(first, v.end())]. *)
Definition erase_from (i : nat) (v : list A) : list A := firstn i v.

End Vector.

(** ** The spline index: [std::map<int32_t, index>] *)

Module ActionMap.

(** Modelled from the spec: the declaration of [ScriptSpline.ActionMap]
    (FunscriptSpline.h) is missing.  A "mapping from timestamp to the
    position of that timestamp's action in actions", queried with
    [lower_bound], [upper_bound] and [find]: an ordered map, here the list
    of its entries in key order. *)
Definition t : Type := list (Z * nat).

(** [emplace]: inserts in key order; an existing key is kept. *)
Fixpoint emplace (k : Z) (i : nat) (m : t) : t :=
  match m with
  | [] => [(k, i)]
  | (k', i') :: m' =>
      if k <? k' then (k, i) :: m
      else if k =? k' then m
      else (k', i') :: emplace k i m'
  end.

(** [lower_bound(k)]: first entry whose key is not less than [k]. *)
Definition lower_bound (k : Z) (m : t) : option (Z * nat) :=
  find (fun e => k <=? fst e) m.

(** [find(k)]. *)
Definition lookup (k : Z) (m : t) : option (Z * nat) :=
  find (fun e => fst e =? k) m.

(** Modelled from the spec: the rebuild of the index (FunscriptSpline.h)
    is missing.  "A mapping timestamp -> array-index built in one O(n)
    pass over the sorted actions": the pass, from index [i] on. *)
Fixpoint Update_from (i : nat) (actions : list FunscriptAction) (m : t) : t :=
  match actions with
  | [] => m
  | action :: actions' => Update_from (S i) actions' (emplace (at_ action) i m)
  end.

(** Modelled from the spec: the rebuild of the index, from an empty
    map. *)
Definition Update (actions : list FunscriptAction) : t :=
  Update_from 0 actions [].

(** The entries of the index of a vector whose first element has index
    [i], when the timestamps ascend. *)
Fixpoint entries (i : nat) (actions : list FunscriptAction) : t :=
  match actions with
  | [] => []
  | action :: actions' => (at_ action, i) :: entries (S i) actions'
  end.

(** [upper_bound(k)]: first entry whose key is greater than [k]. *)
Definition upper_bound (k : Z) (m : t) : option (Z * nat) :=
  find (fun e => k <? fst e) m.

End ActionMap.

(** ** The funscript state *)

Record FunscriptData : Type := mkData {
  Actions : list FunscriptAction;
  selection : list FunscriptAction
}.

Record Funscript : Type := mkFunscript {
  data : FunscriptData;
  ScriptSpline : ActionMap.t;
  SplineNeedsUpdate : bool;
  funscriptChanged : bool;
  selectionChanged : bool
}.

Definition set_Actions (v : list FunscriptAction) (f : Funscript) : Funscript :=
  mkFunscript (mkData v (selection (data f))) (ScriptSpline f)
              (SplineNeedsUpdate f) (funscriptChanged f) (selectionChanged f).

Definition set_selection (v : list FunscriptAction) (f : Funscript) : Funscript :=
  mkFunscript (mkData (Actions (data f)) v) (ScriptSpline f)
              (SplineNeedsUpdate f) (funscriptChanged f) (selectionChanged f).

(** Modelled from the spec: [NotifyActionsChanged] (inline in Funscript.h)
    is missing.  "Every structural mutation invalidates the Spline Index and
    sets the actions-changed flag." *)
Definition NotifyActionsChanged (isEdit : bool) (f : Funscript) : Funscript :=
  mkFunscript (data f) (ScriptSpline f) true true (selectionChanged f).

Definition NotifySelectionChanged (f : Funscript) : Funscript :=
  mkFunscript (data f) (ScriptSpline f) (SplineNeedsUpdate f)
              (funscriptChanged f) true.

(** Modelled from the spec: [sortActions] (inline in Funscript.h) is
    missing; it re-sorts a vector by ascending timestamp.  A sort fixes the
    result only up to the order of equal timestamps; an insertion sort
    stands for it, this is its insertion step. *)
Fixpoint sort_insert (a : FunscriptAction) (v : list FunscriptAction)
  : list FunscriptAction :=
  match v with
  | [] => [a]
  | b :: v' => if at_ a <? at_ b then a :: v else b :: sort_insert a v'
  end.

(** Modelled from the spec: [sortActions], see [sort_insert]. *)
Definition sortActions (v : list FunscriptAction) : list FunscriptAction :=
  fold_left (fun acc a => sort_insert a acc) v [].

(** Modelled from the spec: [sortSelection] (inline in Funscript.h) is
    missing; the selection is "re-sorted" by timestamp. *)
Definition sortSelection (f : Funscript) : Funscript :=
  set_selection (sortActions (selection (data f))) f.

(** Modelled from the spec: [ClearSelection] (inline in Funscript.h) is
    missing; "RemoveSelectedActions ... clears selection". *)
Definition ClearSelection (f : Funscript) : Funscript := set_selection [] f.

(** Modelled from the spec: [AddAction] (inline in Funscript.h) is
    missing.  "Then unconditionally insert the pasted action", "at the
    position preserving ascending order". *)
Definition AddAction (newAction : FunscriptAction) (f : Funscript) : Funscript :=
  let v := Actions (data f) in
  let it := find_if (fun action => at_ newAction <? at_ action) v in
  NotifyActionsChanged true (set_Actions (insert_at it newAction v) f).

(** ** Queries *)

(** The interpolation branch of [GetPositionAtTime]. *)
Definition interpolate (action next : FunscriptAction) (time_ms : Z)
  : Float32.float :=
  let last_pos := pos action in
  let diff := Float32.of_int (Int32.sub (pos next) (pos action)) in
  let progress :=
    Float32.div (Float32.of_int (Int32.sub time_ms (at_ action)))
                (Float32.of_int (Int32.sub (at_ next) (at_ action))) in
  Float32.add (Float32.of_int last_pos) (Float32.mul progress diff).

(** The [for] loop of [GetPositionAtTime] over the actions from index [i]
    on: [v] is the part of the vector that starts at [i].  [None] means
    that the loop ran to its end without returning. *)
Fixpoint GetPositionAtTime_loop (v : list FunscriptAction) (time_ms : Z)
  : option Float32.float :=
  match v with
  | action :: ((next :: _) as v') =>
      if (at_ action <? time_ms) && (time_ms <? at_ next)
      then Some (interpolate action next time_ms)
      else if at_ action =? time_ms
           then Some (Float32.of_int (pos action))
           else GetPositionAtTime_loop v' time_ms
  | _ => None
  end.

(** The index at which [GetPositionAtTime] starts its scan. *)
Definition GetPositionAtTime_start (f : Funscript) (time_ms : Z) : nat :=
  if negb (SplineNeedsUpdate f) then
    match ActionMap.lower_bound time_ms (ScriptSpline f) with
    | Some (_, i) => if (0 <? i)%nat then pred i else i
    | None => 0%nat
    end
  else 0%nat.

Definition GetPositionAtTime (f : Funscript) (time_ms : Z) : Float32.float :=
  match Actions (data f) with
  | [] => Float32.of_int 0
  | [a] => Float32.of_int (pos a)
  | v =>
      let i := GetPositionAtTime_start f time_ms in
      match GetPositionAtTime_loop (skipn i v) time_ms with
      | Some r => r
      | None =>
          match back v with
          | Some a => Float32.of_int (pos a)
          | None => Float32.of_int 0
          end
      end
  end.

(** [getAction] returns a pointer into [data.Actions]; the embedding
    returns the index of the slot. *)
Definition getAction (f : Funscript) (action : FunscriptAction) : option nat :=
  if negb (SplineNeedsUpdate f) then
    match ActionMap.lookup (at_ action) (ScriptSpline f) with
    | Some (_, i) => Some i
    | None => None
    end
  else
    let v := Actions (data f) in
    let it := find_if (fun x => action_eqb x action) v in
    if (it <? length v)%nat then Some it else None.

(** The loop of [getActionAtTime]; [v] is the part of [actions] from index
    [i] on, [max_error_ms] is a [uint32_t]. *)
Fixpoint getActionAtTime_loop (v : list FunscriptAction) (i : nat)
         (time_ms max_error_ms : Z) (smallestError : Z)
         (smallestErrorAction : option nat) : option nat :=
  match v with
  | [] => smallestErrorAction
  | action :: v' =>
      if Int32.to_unsigned (Int32.to_unsigned time_ms + max_error_ms / 2)
         <? Int32.to_unsigned (at_ action)
      then smallestErrorAction
      else
        let error := Int32.abs (Int32.sub time_ms (at_ action)) in
        if Int32.to_unsigned error <=? max_error_ms then
          if error <=? smallestError
          then getActionAtTime_loop v' (S i) time_ms max_error_ms error (Some i)
          else smallestErrorAction
        else getActionAtTime_loop v' (S i) time_ms max_error_ms
                                  smallestError smallestErrorAction
  end.

Definition getActionAtTime_start (f : Funscript) (time_ms max_error_ms : Z)
  : nat :=
  if negb (SplineNeedsUpdate f) then
    let key :=
      Int32.wrap (Int32.to_unsigned (Int32.to_unsigned time_ms - max_error_ms)) in
    match ActionMap.lower_bound key (ScriptSpline f) with
    | Some (_, i) => i
    | None => 0%nat
    end
  else 0%nat.

(** Returns the index of the action the returned pointer refers to. *)
Definition getActionAtTime (f : Funscript) (actions : list FunscriptAction)
           (time_ms max_error_ms : Z) : option nat :=
  let i := getActionAtTime_start f time_ms max_error_ms in
  getActionAtTime_loop (skipn i actions) i time_ms max_error_ms
                       Int32.max_signed None.

(** ** Mutation of the action store *)

Definition AddActionSafe (newAction : FunscriptAction) (f : Funscript)
  : Funscript :=
  let v := Actions (data f) in
  let it := find_if (fun action => at_ newAction <? at_ action) v in
  let from := if (0 <? it)%nat then pred it else 0%nat in
  let safety :=
    Nat.add from (find_if (fun action => at_ newAction =? at_ action)
                          (skipn from v)) in
  if (safety =? length v)%nat
  then NotifyActionsChanged true (set_Actions (insert_at it newAction v) f)
  else f.

Definition checkForInvalidatedActions (f : Funscript) : Funscript :=
  let '(v, it) :=
    remove_if (fun selected =>
                 match getAction f selected with
                 | None => true
                 | Some _ => false
                 end) (selection (data f)) in
  if (it <? length v)%nat
  then NotifySelectionChanged (set_selection (erase_at it v) f)
  else set_selection v f.

Definition RemoveAction (action : FunscriptAction) (checkInvalidSelection : bool)
           (f : Funscript) : Funscript :=
  let v := Actions (data f) in
  let it := find_if (fun x => action_eqb x action) v in
  if (it <? length v)%nat then
    let f1 := NotifyActionsChanged true (set_Actions (erase_at it v) f) in
    if checkInvalidSelection then checkForInvalidatedActions f1 else f1
  else f.

Definition RemoveActions (removeActions : list FunscriptAction) (f : Funscript)
  : Funscript :=
  let f1 := fold_left (fun g action => RemoveAction action false g)
                      removeActions f in
  checkForInvalidatedActions (NotifyActionsChanged true f1).

Definition RemoveActionsInInterval (fromMs toMs : Z) (f : Funscript)
  : Funscript :=
  let '(v, it) :=
    remove_if (fun action => (fromMs <=? at_ action) && (at_ action <=? toMs))
              (Actions (data f)) in
  NotifyActionsChanged true
    (checkForInvalidatedActions (set_Actions (erase_from it v) f)).

(** ** Selection *)

Definition ToggleSelection (action : FunscriptAction) (f : Funscript)
  : bool * Funscript :=
  let v := selection (data f) in
  let it := find_if (fun x => action_eqb x action) v in
  let is_selected := (it <? length v)%nat in
  let f1 := if is_selected then set_selection (erase_at it v) f
            else set_selection (v ++ [action]) f in
  (negb is_selected, NotifySelectionChanged f1).

(** The loop of [SelectTime] over [data.Actions]. *)
Fixpoint SelectTime_loop (v : list FunscriptAction) (from_ms to_ms : Z)
         (f : Funscript) : Funscript :=
  match v with
  | [] => f
  | action :: v' =>
      if (from_ms <=? at_ action) && (at_ action <=? to_ms)
      then SelectTime_loop v' from_ms to_ms (snd (ToggleSelection action f))
      else if to_ms <? at_ action then f
           else SelectTime_loop v' from_ms to_ms f
  end.

Definition SelectTime (from_ms to_ms : Z) (clear : bool) (f : Funscript)
  : Funscript :=
  let f1 := if clear then ClearSelection f else f in
  let f2 := SelectTime_loop (Actions (data f1)) from_ms to_ms f1 in
  let f3 := if negb clear then sortSelection f2 else f2 in
  NotifySelectionChanged f3.

Definition RemoveSelectedActions (f : Funscript) : Funscript :=
  NotifySelectionChanged (ClearSelection (RemoveActions (selection (data f)) f)).

(** The value [first.at + std::round(i * stepMs)] of [EqualizeSelection],
    computed in [float]. *)
Definition equalized_float (first_at : Z) (stepMs : Float32.float) (i : nat)
  : Float32.float :=
  Float32.add (Float32.of_int first_at)
              (Float32.round (Float32.mul (Float32.of_int (Z.of_nat i)) stepMs)).

(** The timestamp [EqualizeSelection] gives to the selected action of index
    [i]: [first.at + std::round(i * stepMs)] converted back to [int32_t];
    [None] where that conversion is undefined. *)
Definition equalized_at (first_at : Z) (stepMs : Float32.float) (i : nat)
  : option Z :=
  Float32.to_int32 (equalized_float first_at stepMs i).

(** One iteration of the rewriting loop of [EqualizeSelection].  [None] is
    undefined behaviour: a conversion out of range, or an index outside
    [copySelection] (which the loop bounds exclude). *)
Definition equalize_step (first_at : Z) (stepMs : Float32.float)
           (copySelection : option (list FunscriptAction)) (i : nat)
  : option (list FunscriptAction) :=
  match copySelection with
  | Some v =>
      match nth_error v i, equalized_at first_at stepMs i with
      | Some newAction, Some t =>
          Some (assign_at i (mkAction t (pos newAction)) v)
      | _, _ => None
      end
  | None => None
  end.

(** [EqualizeSelection]; [None] where the behaviour of the C++ code is
    undefined. *)
Definition EqualizeSelection (f : Funscript) : option Funscript :=
  if (length (selection (data f)) <? 3)%nat then Some f
  else
    let f1 := sortSelection f in
    let sel := selection (data f1) in
    match sel, back sel with
    | first :: _, Some last =>
        let duration := Float32.of_int (Int32.sub (at_ last) (at_ first)) in
        let stepMs :=
          Float32.div duration
                      (Float32.of_int (Z.of_nat (length sel - 1))) in
        let copySelection := sel in
        let f2 := RemoveSelectedActions f1 in
        match fold_left (equalize_step (at_ first) stepMs)
                        (seq 1 (length copySelection - 2))
                        (Some copySelection) with
        | Some copySelection' =>
            let f3 := fold_left (fun g action => AddAction action g)
                                copySelection' f2 in
            Some (set_selection copySelection' f3)
        | None => None
        end
    | _, _ => Some f1
    end.

(** ** The undo system (UndoSystem.h) *)

Inductive StateType : Type :=
| ADD_EDIT_ACTIONS | ADD_EDIT_ACTION | ADD_ACTION
| REMOVE_ACTIONS | REMOVE_ACTION
| MOUSE_MOVE_ACTION | ACTIONS_MOVED
| CUT_SELECTION | REMOVE_SELECTION | PASTE_COPIED_ACTIONS
| EQUALIZE_ACTIONS | INVERT_ACTIONS | ISOLATE_ACTION
| TOP_POINTS_ONLY | MID_POINTS_ONLY | BOTTOM_POINTS_ONLY
| GENERATE_ACTIONS | FRAME_ALIGN | RANGE_EXTEND
| TOTAL_UNDOSTATE_TYPES.

(** The [int32_t] value of each enumerator. *)
Definition StateType_value (k : StateType) : Z :=
  match k with
  | ADD_EDIT_ACTIONS => 0 | ADD_EDIT_ACTION => 1 | ADD_ACTION => 2
  | REMOVE_ACTIONS => 3 | REMOVE_ACTION => 4
  | MOUSE_MOVE_ACTION => 5 | ACTIONS_MOVED => 6
  | CUT_SELECTION => 7 | REMOVE_SELECTION => 8 | PASTE_COPIED_ACTIONS => 9
  | EQUALIZE_ACTIONS => 10 | INVERT_ACTIONS => 11 | ISOLATE_ACTION => 12
  | TOP_POINTS_ONLY => 13 | MID_POINTS_ONLY => 14 | BOTTOM_POINTS_ONLY => 15
  | GENERATE_ACTIONS => 16 | FRAME_ALIGN => 17 | RANGE_EXTEND => 18
  | TOTAL_UNDOSTATE_TYPES => 19
  end.

Definition StateType_eqb (a b : StateType) : bool :=
  StateType_value a =? StateType_value b.

Record ScriptState : Type := mkScriptState {
  state_data : FunscriptData;
  type : StateType
}.

(** The vectors are used as stacks: the top is the back. *)
Record UndoSystem : Type := mkUndoSystem {
  UndoStack : list ScriptState;
  RedoStack : list ScriptState
}.

Definition UndoEmpty (u : UndoSystem) : bool :=
  match UndoStack u with [] => true | _ => false end.

Definition MatchUndoTop (u : UndoSystem) (k : StateType) : bool :=
  negb (UndoEmpty u) &&
  match back (UndoStack u) with
  | Some top => StateType_eqb (type top) k
  | None => false
  end.

(** ** Predicates and drivers used by the properties *)

(** The timeline invariant, as a check: timestamps strictly increase. *)
Fixpoint strictly_increasing (v : list FunscriptAction) : bool :=
  match v with
  | a :: ((b :: _) as v') => (at_ a <? at_ b) && strictly_increasing v'
  | _ => true
  end.

Definition before (a b : FunscriptAction) : Prop := at_ a < at_ b.

(** An edit of the action store: [AddActionSafe] or [RemoveAction]. *)
Inductive edit : Type :=
| Insert (a : FunscriptAction)
| Remove (a : FunscriptAction) (checkInvalidSelection : bool).

Definition apply_edit (e : edit) (f : Funscript) : Funscript :=
  match e with
  | Insert a => AddActionSafe a f
  | Remove a c => RemoveAction a c f
  end.

(** The states reached after each edit of a sequence, in order. *)
Fixpoint run_edits (es : list edit) (f : Funscript) : list Funscript :=
  match es with
  | [] => []
  | e :: es' => let g := apply_edit e f in g :: run_edits es' g
  end.

(** Timestamps and positions a funscript file can hold: non-negative
    [int32_t] milliseconds, positions between 0 and 100. *)
Definition valid_action (a : FunscriptAction) : bool :=
  (0 <=? at_ a) && (at_ a <=? Int32.max_signed) &&
  (0 <=? pos a) && (pos a <=? 100).

(** A well-formed timeline: valid actions, strictly increasing timestamps. *)
Definition well_formed (v : list FunscriptAction) : bool :=
  forallb valid_action v && strictly_increasing v.

(** The spline index is either flagged stale or describes the store. *)
Definition index_ok (f : Funscript) : Prop :=
  SplineNeedsUpdate f = true \/
  ScriptSpline f = ActionMap.Update (Actions (data f)).

(** [GetPositionAtTime] when the scan starts at index 0. *)
Definition position_scan (v : list FunscriptAction) (time_ms : Z)
  : Float32.float :=
  match v with
  | [] => Float32.of_int 0
  | [a] => Float32.of_int (pos a)
  | _ =>
      match GetPositionAtTime_loop v time_ms with
      | Some r => r
      | None =>
          match back v with
          | Some a => Float32.of_int (pos a)
          | None => Float32.of_int 0
          end
      end
  end.

Definition Sorted_at (v : list FunscriptAction) : Prop := StronglySorted before v.

(** Ascending timestamps, equal ones allowed: what [sortActions] gives. *)
Definition Sorted_le (v : list FunscriptAction) : Prop :=
  StronglySorted (fun a b => at_ a <= at_ b) v.

(** The effect of [ToggleSelection] on the selection vector. *)
Definition toggle (action : FunscriptAction) (v : list FunscriptAction)
  : list FunscriptAction :=
  let it := find_if (fun x => action_eqb x action) v in
  if (it <? length v)%nat then erase_at it v else v ++ [action].

Definition in_interval (from_ms to_ms : Z) (a : FunscriptAction) : bool :=
  (from_ms <=? at_ a) && (at_ a <=? to_ms).

(** [SelectTime] with [clear = false] as a merge: every action of the
    interval is selected afterwards and every selected action stays
    selected. *)
Definition merges_selection (from_ms to_ms : Z) (f g : Funscript) : Prop :=
  (forall a, In a (Actions (data f)) -> from_ms <= at_ a <= to_ms ->
             In a (selection (data g))) /\
  (forall a, In a (selection (data f)) -> In a (selection (data g))).

(** Distance of an action from the query time. *)
Definition distance (t : Z) (a : FunscriptAction) : Z := Z.abs (t - at_ a).

Definition within_tolerance (t maxErr : Z) (a : FunscriptAction) : Prop :=
  distance t a <= maxErr.

(** C6 as stated: [r] (an index into [actions], or nothing) is the action
    nearest to [t] among those within the tolerance, the first of them in
    scan order when several are equally near; nothing only when no action
    is within the tolerance. *)
Definition nearest_within_tolerance (actions : list FunscriptAction)
           (t maxErr : Z) (r : option nat) : Prop :=
  match r with
  | None => forall a, In a actions -> ~ within_tolerance t maxErr a
  | Some i =>
      exists a,
        nth_error actions i = Some a /\ within_tolerance t maxErr a /\
        (forall b, In b actions -> within_tolerance t maxErr b ->
                   distance t a <= distance t b) /\
        (forall j b, nth_error actions j = Some b ->
                     within_tolerance t maxErr b ->
                     distance t b = distance t a -> (i <= j)%nat)
  end.

(** The window the loop of [getActionAtTime] accepts actions from: the full
    tolerance behind the query time, half of it (integer division) ahead. *)
Definition in_window (t maxErr : Z) (a : FunscriptAction) : Prop :=
  t - maxErr <= at_ a <= t + maxErr / 2.

(** [r] is the action nearest to [t] among those of the window, the later
    one of two equally near actions; nothing only when the window holds no
    action. *)
Definition nearest_in_window (actions : list FunscriptAction)
           (t maxErr : Z) (r : option nat) : Prop :=
  match r with
  | None => forall a, In a actions -> ~ in_window t maxErr a
  | Some i =>
      exists a,
        nth_error actions i = Some a /\ in_window t maxErr a /\
        forall b, In b actions -> in_window t maxErr b ->
                  distance t a <= distance t b /\
                  (distance t b = distance t a -> at_ b <= at_ a)
  end.

(** What the loop of [getActionAtTime] knows after the actions [seen]. *)
Definition loop_inv (actions : list FunscriptAction) (t maxErr : Z)
           (seen : list FunscriptAction) (smallestError : Z)
           (smallestErrorAction : option nat) : Prop :=
  match smallestErrorAction with
  | None =>
      smallestError = Int32.max_signed /\
      forall a, In a seen -> ~ in_window t maxErr a
  | Some j =>
      exists c,
        nth_error actions j = Some c /\ In c seen /\ in_window t maxErr c /\
        smallestError = distance t c /\
        forall b, In b seen -> in_window t maxErr b ->
                  distance t c <= distance t b /\
                  (distance t b = distance t c -> at_ b <= at_ c)
  end.


(** The step of [EqualizeSelection] for a selection:
    [(last.at - first.at) / (count - 1)] in single precision. *)
Definition equalize_stepMs (sel : list FunscriptAction) : Float32.float :=
  match sel, back sel with
  | first :: _, Some last =>
      Float32.div (Float32.of_int (at_ last - at_ first))
                  (Float32.of_int (Z.of_nat (length sel) - 1))
  | _, _ => Float32.of_int 0
  end.

(** Every interior timestamp computed for the selection converts to
    [int32_t]. *)
Definition equalize_defined (sel : list FunscriptAction) : bool :=
  match sel with
  | first :: _ =>
      forallb
        (fun i =>
           match Float32.to_int32
                   (equalized_float (at_ first) (equalize_stepMs sel) i) with
           | Some _ => true
           | None => false
           end)
        (seq 1 (length sel - 2))
  | [] => true
  end.


(** The rewriting loop of [EqualizeSelection] on a plain vector, the
    conversion taken as the truncation. *)
Definition equalize_step_trunc (first_at : Z) (stepMs : Float32.float)
           (copySelection : list FunscriptAction) (i : nat)
  : list FunscriptAction :=
  match nth_error copySelection i with
  | Some newAction =>
      assign_at i
        (mkAction (Float32.to_int (equalized_float first_at stepMs i))
                  (pos newAction))
        copySelection
  | None => copySelection
  end.





(** ** Further member functions of [Funscript] *)

(** [getNextActionAhead]; the result is the index of the action the
    returned pointer refers to. *)
Definition getNextActionAhead (f : Funscript) (time_ms : Z) : option nat :=
  if negb (SplineNeedsUpdate f) then
    match ActionMap.upper_bound time_ms (ScriptSpline f) with
    | Some (key, index) => if time_ms <? key then Some index else None
    | None => None
    end
  else
    let v := Actions (data f) in
    let it := find_if (fun action => time_ms <? at_ action) v in
    if (it <? length v)%nat then Some it else None.

(** [getPreviousActionBehind]; the linear search walks the reverse
    iterators, [it] counts from the back. *)
Definition getPreviousActionBehind (f : Funscript) (time_ms : Z) : option nat :=
  if negb (SplineNeedsUpdate f) then
    match ActionMap.upper_bound time_ms (ScriptSpline f) with
    | Some (_, index) => if (0 <? index)%nat then Some (pred index) else None
    | None => None
    end
  else
    let v := Actions (data f) in
    let it := find_if (fun action => at_ action <? time_ms) (rev v) in
    if (it <? length v)%nat then Some (length v - 1 - it)%nat else None.

(** [AddActionRange]; the [unordered_set] is filled from the store before
    the loop and only queried in it. *)
Definition AddActionRange (range : list FunscriptAction) (checkDuplicates : bool)
           (f : Funscript) : Funscript :=
  let v := Actions (data f) in
  let v1 :=
    if checkDuplicates then
      fold_left (fun w action =>
                   if existsb (fun x => action_eqb x action) v then w
                   else w ++ [action])
                range v
    else v ++ range in
  NotifyActionsChanged true (set_Actions (sortActions v1) f).

(** [EditAction]: the slot [getAction] points to is overwritten. *)
Definition EditAction (oldAction newAction : FunscriptAction) (f : Funscript)
  : bool * Funscript :=
  match getAction f oldAction with
  | Some i =>
      let f1 := set_Actions (assign_at i newAction (Actions (data f))) f in
      (true, NotifyActionsChanged true (checkForInvalidatedActions f1))
  | None => (false, f)
  end.

Definition SetActions (override_with : list FunscriptAction) (f : Funscript)
  : Funscript :=
  NotifyActionsChanged true (set_Actions (sortActions override_with) f).

(** [SetSelection(FunscriptAction, bool)]. *)
Definition SetSelection (action : FunscriptAction) (selected : bool)
           (f : Funscript) : Funscript :=
  let v := selection (data f) in
  let it := find_if (fun x => action_eqb x action) v in
  let is_selected := (it <? length v)%nat in
  let f1 :=
    if is_selected && negb selected then set_selection (erase_at it v) f
    else if negb is_selected && selected
         then sortSelection (set_selection (v ++ [action]) f)
         else f in
  NotifySelectionChanged f1.

(** The [deselect] vector [SelectTopActions] collects: for each interior
    action, the lower one of it and its predecessor, and the lower one of
    that and the successor when their timestamps differ. *)
Fixpoint top_deselect (v : list FunscriptAction) : list FunscriptAction :=
  match v with
  | prev :: ((current :: next :: _) as v') =>
      let min1 := if pos prev <? pos current then prev else current in
      let min2 := if pos min1 <? pos next then min1 else next in
      (min1 :: if at_ min1 =? at_ min2 then [] else [min2]) ++ top_deselect v'
  | _ => []
  end.

Definition SelectTopActions (f : Funscript) : Funscript :=
  if (length (selection (data f)) <? 3)%nat then f
  else
    NotifySelectionChanged
      (fold_left (fun g act => SetSelection act false g)
                 (top_deselect (selection (data f))) f).

(** The [deselect] vector of [SelectBottomActions]. *)
Fixpoint bottom_deselect (v : list FunscriptAction) : list FunscriptAction :=
  match v with
  | prev :: ((current :: next :: _) as v') =>
      let max1 := if pos current <? pos prev then prev else current in
      let max2 := if pos next <? pos max1 then max1 else next in
      (max1 :: if at_ max1 =? at_ max2 then [] else [max2]) ++ bottom_deselect v'
  | _ => []
  end.

Definition SelectBottomActions (f : Funscript) : Funscript :=
  if (length (selection (data f)) <? 3)%nat then f
  else
    NotifySelectionChanged
      (fold_left (fun g act => SetSelection act false g)
                 (bottom_deselect (selection (data f))) f).

Definition SelectMidActions (f : Funscript) : Funscript :=
  if (length (selection (data f)) <? 3)%nat then f
  else
    let selectionCopy := selection (data f) in
    let f1 := SelectTopActions f in
    let topPoints := selection (data f1) in
    let f2 := SelectBottomActions (set_selection selectionCopy f1) in
    let bottomPoints := selection (data f2) in
    let '(w, it) :=
      remove_if (fun val =>
                   existsb (fun a => action_eqb a val) topPoints
                   || existsb (fun a => action_eqb a val) bottomPoints)
                selectionCopy in
    NotifySelectionChanged
      (sortSelection (set_selection (erase_from it w) f2)).

Definition SelectAll (f : Funscript) : Funscript :=
  NotifySelectionChanged
    (set_selection (Actions (data f)) (ClearSelection f)).

Definition IsSelected (f : Funscript) (action : FunscriptAction) : bool :=
  let v := selection (data f) in
  (find_if (fun x => action_eqb x action) v <? length v)%nat.

(** [SetSelection(const std::vector<FunscriptAction>&, bool)]. *)
Definition SetSelection_all (action_to_select : list FunscriptAction)
           (unsafe : bool) (f : Funscript) : Funscript :=
  sortSelection
    (fold_left
       (fun g action =>
          if unsafe then set_selection (selection (data g) ++ [action]) g
          else
            let v := Actions (data g) in
            if (find_if (fun x => action_eqb x action) v <? length v)%nat
            then set_selection (selection (data g) ++ [action]) g
            else g)
       action_to_select (ClearSelection f)).

(** [InvertSelection]. *)
Definition InvertSelection (f : Funscript) : Funscript :=
  match selection (data f) with
  | [] => f
  | copySelection =>
      let f1 := RemoveSelectedActions f in
      let inverted :=
        map (fun act => mkAction (at_ act) (Int32.abs (Int32.sub (pos act) 100)))
            copySelection in
      let f2 := fold_left (fun g act => AddAction act g) inverted f1 in
      set_selection inverted f2
  end.

(** ** The event system (EventSystem.cpp) *)

(** A handler: the event type it is subscribed to, the listener pointer,
    and the callback, which the embedding only names. *)
Record EventHandler : Type := mkHandler {
  eventType : Z;
  listener : Z;
  func : nat
}.

(** [PushEvent]: the callbacks invoked, in order. *)
Definition PushEvent (handlers : list EventHandler) (event_type : Z)
  : list nat :=
  map func (filter (fun handler => eventType handler =? event_type) handlers).

Definition Subscribe (event_type l : Z) (handler : nat)
           (handlers : list EventHandler) : list EventHandler :=
  handlers ++ [mkHandler event_type l handler].

(** [Unsubscribe]: [None] stands for the failed assertion. *)
Definition Unsubscribe (event_type l : Z) (handlers : list EventHandler)
  : option (list EventHandler) :=
  let it := find_if (fun handler => listener handler =? l) handlers in
  if (it <? length handlers)%nat then Some (erase_at it handlers) else None.

(** ** Predicates used by the further properties *)

(** [r] is the index of the first action of [v] after [t], or nothing when
    no action is after [t]. *)
Definition next_ahead (v : list FunscriptAction) (t : Z) (r : option nat)
  : Prop :=
  match r with
  | Some i =>
      exists v1 a v2,
        v = v1 ++ a :: v2 /\ i = length v1 /\ t < at_ a /\
        forall b, In b v1 -> at_ b <= t
  | None => forall b, In b v -> at_ b <= t
  end.

(** The [deselect] vector of [SelectTopActions] and [SelectBottomActions]
    over the comparison [lt] of positions each of them uses. *)
Fixpoint extremum_deselect (lt : Z -> Z -> bool) (v : list FunscriptAction)
  : list FunscriptAction :=
  match v with
  | prev :: ((current :: next :: _) as v') =>
      let m1 := if lt (pos prev) (pos current) then prev else current in
      let m2 := if lt (pos m1) (pos next) then m1 else next in
      (m1 :: if at_ m1 =? at_ m2 then [] else [m2]) ++ extremum_deselect lt v'
  | _ => []
  end.

(** [p], [c], [n] are three consecutive entries of [v], [c] at index
    [S i]. *)
Definition consecutive (v : list FunscriptAction) (i : nat)
           (p c n : FunscriptAction) : Prop :=
  nth_error v i = Some p /\ nth_error v (S i) = Some c /\
  nth_error v (S (S i)) = Some n.

(** * Properties *)

(** ** Lists as vectors *)

Section VectorFacts.
Context {A : Type}.
Implicit Types (p : A -> bool) (v : list A).

(** The vector splits at the index [find_if] returns. *)
Lemma find_if_split p v :
  exists v1 v2,
    v = v1 ++ v2 /\ length v1 = find_if p v /\
    Forall (fun x => p x = false) v1 /\
    match v2 with [] => True | y :: _ => p y = true end.
Proof.
  induction v as [|x v IH]; simpl.
  - exists [], []. repeat split; constructor.
  - destruct (p x) eqn:Hx.
    + exists [], (x :: v). repeat split; auto.
    + destruct IH as (v1 & v2 & -> & Hlen & Hall & Hhd).
      exists (x :: v1), v2. simpl. repeat split; auto.
Qed.

Lemma find_if_none p v :
  Forall (fun x => p x = false) v -> find_if p v = length v.
Proof.
  induction 1 as [|x v Hx _ IH]; simpl; [reflexivity|]. now rewrite Hx, IH.
Qed.

Lemma find_if_found p v :
  (find_if p v < length v)%nat <-> exists x, In x v /\ p x = true.
Proof.
  induction v as [|x v IH]; simpl.
  - split; [lia | intros (? & [] & _)].
  - destruct (p x) eqn:Hx.
    + split; [intros _; exists x; auto | lia].
    + rewrite <- Nat.succ_lt_mono, IH. split.
      * intros (y & Hy & Hp). exists y; auto.
      * intros (y & [->|Hy] & Hp); [congruence | exists y; auto].
Qed.

Lemma firstn_length_app (v1 v2 : list A) : firstn (length v1) (v1 ++ v2) = v1.
Proof.
  rewrite firstn_app, Nat.sub_diag, firstn_all. simpl. apply app_nil_r.
Qed.

Lemma skipn_length_app (v1 v2 : list A) : skipn (length v1) (v1 ++ v2) = v2.
Proof.
  rewrite skipn_app, Nat.sub_diag, skipn_all. reflexivity.
Qed.

Lemma erase_at_app (v1 : list A) x v2 :
  erase_at (length v1) (v1 ++ x :: v2) = v1 ++ v2.
Proof.
  unfold erase_at. rewrite firstn_length_app.
  replace (S (length v1)) with (length (v1 ++ [x])) by (rewrite length_app; simpl; lia).
  replace (v1 ++ x :: v2) with ((v1 ++ [x]) ++ v2) by (now rewrite <- app_assoc).
  now rewrite skipn_length_app.
Qed.

Lemma insert_at_app (v1 : list A) x v2 :
  insert_at (length v1) x (v1 ++ v2) = v1 ++ x :: v2.
Proof.
  unfold insert_at. now rewrite firstn_length_app, skipn_length_app.
Qed.

Lemma back_app_last (v : list A) x : back (v ++ [x]) = Some x.
Proof.
  induction v as [|y v IH]; simpl; [reflexivity|].
  rewrite IH. destruct (v ++ [x]) eqn:E; [|reflexivity].
  now destruct v.
Qed.

Lemma snoc_case (v : list A) : v = [] \/ exists v' x, v = v' ++ [x].
Proof.
  induction v as [|x v' _] using rev_ind; [now left | right; eauto].
Qed.

Lemma filter_none p v :
  (forall x, In x v -> p x = false) -> filter p v = [].
Proof.
  induction v as [|x v IH]; intros H; simpl; [reflexivity|].
  rewrite (H x (or_introl eq_refl)). apply IH. intros y Hy. apply H. now right.
Qed.

Lemma back_cons (x y : A) v : back (x :: y :: v) = back (y :: v).
Proof. reflexivity. Qed.

Lemma back_In (v : list A) x : back v = Some x -> In x v.
Proof.
  induction v as [|y v IH]; [discriminate|].
  destruct v as [|z v].
  - simpl. intros [= ->]. now left.
  - rewrite back_cons. intros H. right. now apply IH.
Qed.

End VectorFacts.

(** ** The timeline invariant *)

Lemma Sorted_at_app v1 v2 :
  Sorted_at (v1 ++ v2) <->
  Sorted_at v1 /\ Sorted_at v2 /\
  (forall x y, In x v1 -> In y v2 -> at_ x < at_ y).
Proof.
  unfold Sorted_at. induction v1 as [|a v1 IH]; simpl.
  - split.
    + intros H. repeat split; [constructor | exact H | intros ? ? []].
    + now intros (_ & H & _).
  - split.
    + intros H. apply StronglySorted_inv in H as [Hs Hall].
      apply IH in Hs as (H1 & H2 & H12).
      rewrite Forall_app in Hall. destruct Hall as [Ha1 Ha2].
      repeat split; [constructor; assumption | assumption |].
      intros x y [<-|Hx] Hy; [|now apply H12].
      rewrite Forall_forall in Ha2. now apply Ha2.
    + intros (H1 & H2 & H12). apply StronglySorted_inv in H1 as [Hs Hall].
      constructor.
      * apply IH. repeat split; auto.
      * apply Forall_app. split; [assumption|].
        apply Forall_forall. intros y Hy. apply H12; auto.
Qed.

Lemma strictly_increasing_Sorted_at v :
  strictly_increasing v = true <-> Sorted_at v.
Proof.
  unfold Sorted_at. induction v as [|a v IH].
  - split; [constructor | reflexivity].
  - destruct v as [|b v].
    + split; [repeat constructor | reflexivity].
    + change (strictly_increasing (a :: b :: v))
        with ((at_ a <? at_ b) && strictly_increasing (b :: v)).
      rewrite andb_true_iff, Z.ltb_lt, IH. split.
      * intros [Hab Hs]. constructor; [assumption|].
        pose proof (StronglySorted_inv Hs) as [_ Hall].
        constructor; [assumption|].
        eapply Forall_impl; [|exact Hall]. unfold before. intros; lia.
      * intros H. apply StronglySorted_inv in H as [Hs Hall].
        split; [|assumption]. now inversion Hall.
Qed.

Lemma Sorted_at_NoDup v : Sorted_at v -> NoDup (map at_ v).
Proof.
  induction 1 as [|a v _ IH Hall]; simpl; constructor; [|assumption].
  rewrite in_map_iff. intros (b & Hb & Hin).
  rewrite Forall_forall in Hall. specialize (Hall b Hin). unfold before in Hall. lia.
Qed.

Lemma Sorted_at_cons_tail a v : Sorted_at (a :: v) -> Sorted_at v.
Proof. intros H. now apply StronglySorted_inv in H. Qed.

(** ** Record updates *)

Lemma Actions_checkForInvalidatedActions f :
  Actions (data (checkForInvalidatedActions f)) = Actions (data f).
Proof.
  unfold checkForInvalidatedActions.
  destruct (remove_if _ _) as [v it]. now destruct (it <? length v)%nat.
Qed.

(** ** [AddActionSafe] *)

(** On a sorted store [AddActionSafe] either finds the timestamp taken and
    leaves the whole state alone, or splits the store around the new
    timestamp and puts the action in between. *)
Lemma AddActionSafe_cases (a : FunscriptAction) (f : Funscript) :
  Sorted_at (Actions (data f)) ->
  ((exists b, In b (Actions (data f)) /\ at_ b = at_ a) /\
   AddActionSafe a f = f) \/
  ((forall b, In b (Actions (data f)) -> at_ b <> at_ a) /\
   exists v1 v2,
     Actions (data f) = v1 ++ v2 /\
     (forall b, In b v1 -> at_ b < at_ a) /\
     (forall b, In b v2 -> at_ a < at_ b) /\
     AddActionSafe a f =
       NotifyActionsChanged true (set_Actions (v1 ++ a :: v2) f)).
Proof.
  intros Hs. unfold AddActionSafe.
  destruct (find_if_split (fun action => at_ a <? at_ action) (Actions (data f)))
    as (v1 & v2 & Hv & Hlen & H1 & H2).
  rewrite <- Hlen. rewrite Hv in Hs |- *.
  apply Sorted_at_app in Hs as (Hs1 & Hs2 & H12).
  assert (Hle : forall b, In b v1 -> at_ b <= at_ a).
  { rewrite Forall_forall in H1. intros b Hb. specialize (H1 b Hb).
    apply Z.ltb_ge in H1. exact H1. }
  assert (Hgt : forall b, In b v2 -> at_ a < at_ b).
  { destruct v2 as [|y v2]; [intros ? []|].
    apply Z.ltb_lt in H2. apply StronglySorted_inv in Hs2 as [_ Hall].
    rewrite Forall_forall in Hall. intros b [<-|Hb]; [assumption|].
    specialize (Hall b Hb). unfold before in Hall. lia. }
  assert (Hnone2 : find_if (fun action => at_ a =? at_ action) v2 = length v2).
  { apply find_if_none, Forall_forall. intros b Hb. apply Hgt in Hb.
    apply Z.eqb_neq. lia. }
  destruct (snoc_case v1) as [->|(v1' & e & ->)].
  - (* nothing at or before the new timestamp *)
    simpl. rewrite Hnone2, Nat.eqb_refl. right. split.
    + intros b Hb. apply Hgt in Hb. lia.
    + exists [], v2. repeat split; auto. intros ? [].
  - rewrite length_app. simpl length.
    replace (0 <? length v1' + 1)%nat with true by (symmetry; apply Nat.ltb_lt; lia).
    replace (pred (length v1' + 1)) with (length v1') by lia.
    rewrite <- app_assoc. rewrite skipn_length_app. simpl.
    destruct (at_ a =? at_ e) eqn:He.
    + (* the action just before the insertion point has the timestamp *)
      apply Z.eqb_eq in He.
      replace (length v1' + 0 =? length (v1' ++ e :: v2))%nat with false.
      2:{ symmetry. apply Nat.eqb_neq. rewrite length_app. simpl. lia. }
      left. split; [|reflexivity].
      exists e. split; [|now symmetry]. apply in_or_app. right. now left.
    + apply Z.eqb_neq in He. rewrite Hnone2.
      replace (length v1' + S (length v2) =? length (v1' ++ e :: v2))%nat with true.
      2:{ symmetry. apply Nat.eqb_eq. rewrite length_app. simpl. lia. }
      assert (Hlt : forall b, In b (v1' ++ [e]) -> at_ b < at_ a).
      { intros b Hb. pose proof (Hle b Hb) as Hb'.
        apply in_app_or in Hb as [Hb|[<-|[]]]; [|lia].
        apply Sorted_at_app in Hs1 as (_ & _ & Hbe).
        specialize (Hbe b e Hb (or_introl eq_refl)).
        assert (He' : In e (v1' ++ [e])) by (apply in_or_app; right; now left).
        specialize (Hle e He'). lia. }
      right. split.
      * intros b Hb. replace (v1' ++ e :: v2) with ((v1' ++ [e]) ++ v2) in Hb
          by (now rewrite <- app_assoc).
        apply in_app_or in Hb as [Hb|Hb]; [apply Hlt in Hb | apply Hgt in Hb]; lia.
      * exists (v1' ++ [e]), v2. rewrite <- app_assoc. simpl.
        repeat split; auto.
        replace (length v1' + 1)%nat with (length (v1' ++ [e]))
          by (rewrite length_app; reflexivity).
        replace (v1' ++ e :: v2) with ((v1' ++ [e]) ++ v2) by (now rewrite <- app_assoc).
        rewrite insert_at_app. now rewrite <- app_assoc.
Qed.

Lemma AddActionSafe_sorted a f :
  Sorted_at (Actions (data f)) -> Sorted_at (Actions (data (AddActionSafe a f))).
Proof.
  intros Hs.
  destruct (AddActionSafe_cases a f Hs)
    as [[_ ->]|(_ & v1 & v2 & Hv & H1 & H2 & ->)]; [assumption|].
  simpl. rewrite Hv in Hs. apply Sorted_at_app in Hs as (Hs1 & Hs2 & H12).
  apply Sorted_at_app. repeat split; [assumption| |].
  - constructor; [assumption|]. apply Forall_forall. exact H2.
  - intros x y Hx [<-|Hy]; [now apply H1 | now apply H12].
Qed.

Lemma Sorted_at_count v b :
  Sorted_at v -> In b v ->
  length (filter (fun c => at_ c =? at_ b) v) = 1%nat.
Proof.
  intros Hs Hb. apply in_split in Hb as (v1 & v2 & ->).
  apply Sorted_at_app in Hs as (_ & Hs2 & H12).
  apply StronglySorted_inv in Hs2 as [_ Hall]. rewrite Forall_forall in Hall.
  rewrite filter_app. simpl. rewrite Z.eqb_refl.
  assert (E1 : filter (fun c => at_ c =? at_ b) v1 = []).
  { apply filter_none. intros x Hx. apply Z.eqb_neq.
    specialize (H12 x b Hx (or_introl eq_refl)). lia. }
  assert (E2 : filter (fun c => at_ c =? at_ b) v2 = []).
  { apply filter_none. intros x Hx. apply Z.eqb_neq.
    specialize (Hall x Hx). unfold before in Hall. lia. }
  now rewrite E1, E2.
Qed.

(** ** [RemoveAction] *)

Lemma RemoveAction_Actions a c f :
  Actions (data (RemoveAction a c f)) = Actions (data f) \/
  exists v1 v2,
    Actions (data f) = v1 ++ a :: v2 /\
    Actions (data (RemoveAction a c f)) = v1 ++ v2.
Proof.
  unfold RemoveAction.
  destruct (find_if_split (fun x => action_eqb x a) (Actions (data f)))
    as (v1 & v2 & Hv & Hlen & _ & H2).
  rewrite <- Hlen, Hv.
  destruct (length v1 <? length (v1 ++ v2))%nat eqn:Hlt; [|now left].
  apply Nat.ltb_lt in Hlt. rewrite length_app in Hlt.
  destruct v2 as [|y v2]; [simpl in Hlt; lia|].
  assert (y = a) as ->.
  { unfold action_eqb in H2. apply andb_true_iff in H2 as [Hat Hpos].
    apply Z.eqb_eq in Hat, Hpos. destruct y, a; simpl in *; congruence. }
  right. exists v1, v2. split; [reflexivity|].
  rewrite erase_at_app.
  destruct c; [rewrite Actions_checkForInvalidatedActions|]; reflexivity.
Qed.

Lemma RemoveAction_sorted a c f :
  Sorted_at (Actions (data f)) -> Sorted_at (Actions (data (RemoveAction a c f))).
Proof.
  intros Hs.
  destruct (RemoveAction_Actions a c f) as [->|(v1 & v2 & Hv & ->)]; [assumption|].
  rewrite Hv in Hs. apply Sorted_at_app in Hs as (Hs1 & Hs2 & H12).
  apply Sorted_at_app. repeat split; [assumption | |].
  - now apply Sorted_at_cons_tail in Hs2.
  - intros x y Hx Hy. apply H12; [assumption | now right].
Qed.

Lemma apply_edit_sorted e f :
  Sorted_at (Actions (data f)) -> Sorted_at (Actions (data (apply_edit e f))).
Proof.
  destruct e; simpl; [apply AddActionSafe_sorted | apply RemoveAction_sorted].
Qed.

(** C1 -- sort invariant.  From a timeline whose actions strictly increase
    by timestamp, every state reached along a sequence of [AddActionSafe]
    and [RemoveAction] calls has its actions strictly increasing by
    timestamp, with no timestamp occurring twice. *)
Theorem sort_invariant (es : list edit) (f : Funscript) :
  strictly_increasing (Actions (data f)) = true ->
  Forall (fun g =>
            strictly_increasing (Actions (data g)) = true /\
            NoDup (map at_ (Actions (data g))))
         (run_edits es f).
Proof.
  rewrite strictly_increasing_Sorted_at. revert f.
  induction es as [|e es IH]; intros f Hs; simpl; constructor.
  - pose proof (apply_edit_sorted e f Hs) as Hs'. split.
    + now apply strictly_increasing_Sorted_at.
    + now apply Sorted_at_NoDup.
  - apply IH. now apply apply_edit_sorted.
Qed.

(** A run of the invariant: two inserts (the second one on a taken
    timestamp) and a removal. *)
Lemma sort_invariant_witness :
  let f := mkFunscript (mkData [mkAction 0 0; mkAction 1000 100] []) [] true false false in
  let es := [Insert (mkAction 500 50); Insert (mkAction 500 20);
             Remove (mkAction 0 0) true] in
  strictly_increasing (Actions (data f)) = true /\
  Forall (fun g =>
            strictly_increasing (Actions (data g)) = true /\
            NoDup (map at_ (Actions (data g))))
         (run_edits es f).
Proof.
  intros f es. split; [reflexivity|].
  apply (sort_invariant es f). reflexivity.
Defined.

(** C5 -- duplicate rejection.  On a timeline with strictly increasing
    timestamps, [AddActionSafe] leaves the state untouched when the
    timestamp is taken; otherwise it puts the action between the earlier and
    the later actions, and the store stays strictly increasing.  A second
    call with the same timestamp changes nothing, and the store holds
    exactly one action with that timestamp. *)
Theorem AddActionSafe_duplicate_rejection (f : Funscript) (a : FunscriptAction) :
  strictly_increasing (Actions (data f)) = true ->
  ((exists b, In b (Actions (data f)) /\ at_ b = at_ a) ->
   AddActionSafe a f = f) /\
  ((forall b, In b (Actions (data f)) -> at_ b <> at_ a) ->
   exists v1 v2,
     Actions (data f) = v1 ++ v2 /\
     (forall b, In b v1 -> at_ b < at_ a) /\
     (forall b, In b v2 -> at_ a < at_ b) /\
     Actions (data (AddActionSafe a f)) = v1 ++ a :: v2 /\
     strictly_increasing (v1 ++ a :: v2) = true) /\
  (forall a', at_ a' = at_ a ->
     let f1 := AddActionSafe a f in
     AddActionSafe a' f1 = f1 /\
     length (filter (fun b => at_ b =? at_ a) (Actions (data f1))) = 1%nat).
Proof.
  rewrite strictly_increasing_Sorted_at. intros Hs.
  pose proof (AddActionSafe_sorted a f Hs) as Hs1.
  assert (Hin : exists b, In b (Actions (data (AddActionSafe a f))) /\ at_ b = at_ a).
  { destruct (AddActionSafe_cases a f Hs)
      as [[Hex ->]|(_ & v1 & v2 & _ & _ & _ & ->)]; [assumption|].
    exists a. split; [|reflexivity]. simpl. apply in_or_app. right. now left. }
  split; [|split].
  - intros (b & Hb & Hat).
    destruct (AddActionSafe_cases a f Hs) as [[_ E]|[Hno _]]; [assumption|].
    now destruct (Hno b Hb).
  - intros Hno.
    destruct (AddActionSafe_cases a f Hs)
      as [[(b & Hb & Hat) _]|(_ & v1 & v2 & Hv & H1 & H2 & E)].
    + now destruct (Hno b Hb).
    + exists v1, v2. rewrite E in Hs1 |- *. simpl in *.
      repeat split; auto. now apply strictly_increasing_Sorted_at.
  - intros a' Ha' f1. subst f1. split.
    + destruct (AddActionSafe_cases a' _ Hs1) as [[_ E]|[Hno _]]; [assumption|].
      destruct Hin as (b & Hb & Hat). destruct (Hno b Hb). congruence.
    + destruct Hin as (b & Hb & Hat). rewrite <- Hat.
      now apply Sorted_at_count.
Qed.

(** The spec's example: [(1000, 50)] added twice to an empty store. *)
Lemma AddActionSafe_duplicate_rejection_witness :
  let f := mkFunscript (mkData [] []) [] true false false in
  let a := mkAction 1000 50 in
  strictly_increasing (Actions (data f)) = true /\
  AddActionSafe a (AddActionSafe a f) = AddActionSafe a f /\
  length (filter (fun b => at_ b =? 1000)
                 (Actions (data (AddActionSafe a (AddActionSafe a f))))) = 1%nat.
Proof.
  intros f a.
  assert (Hs : strictly_increasing (Actions (data f)) = true) by reflexivity.
  destruct (AddActionSafe_duplicate_rejection f a Hs) as (_ & _ & Htwice).
  destruct (Htwice a eq_refl) as [Hsame Hone].
  split; [exact Hs|]. split; [exact Hsame|].
  rewrite Hsame. exact Hone.
Defined.

(** ** The undo stack *)

Lemma StateType_eqb_eq (a b : StateType) : StateType_eqb a b = true <-> a = b.
Proof.
  split; [|intros ->; apply Z.eqb_refl].
  unfold StateType_eqb. intros H. apply Z.eqb_eq in H.
  destruct a, b; solve [reflexivity | discriminate H].
Qed.

(** C9 -- [MatchUndoTop(k)] holds exactly when the undo stack is not empty
    and the kind of its top entry (the back of the vector) is [k]. *)
Theorem MatchUndoTop_iff (u : UndoSystem) (k : StateType) :
  MatchUndoTop u k = true <->
  UndoStack u <> [] /\
  exists top, back (UndoStack u) = Some top /\ type top = k.
Proof.
  unfold MatchUndoTop, UndoEmpty. destruct (UndoStack u) as [|s stack] eqn:E.
  - simpl. split; [discriminate | now intros [H _]].
  - destruct (back (s :: stack)) as [top|] eqn:Hb; simpl.
    + rewrite StateType_eqb_eq. split.
      * intros <-. split; [discriminate | eauto].
      * now intros (_ & top' & [= <-] & Hk).
    + split; [discriminate | now intros (_ & top' & [=] & _)].
Qed.

(** ** The spline index of a sorted store *)

Lemma emplace_last k i m :
  Forall (fun e => fst e < k) m -> ActionMap.emplace k i m = m ++ [(k, i)].
Proof.
  induction 1 as [|[k' i'] m Hk _ IH]; simpl; [reflexivity|].
  simpl in Hk.
  replace (k <? k') with false by (symmetry; apply Z.ltb_ge; lia).
  replace (k =? k') with false by (symmetry; apply Z.eqb_neq; lia).
  now rewrite IH.
Qed.

Lemma Update_from_sorted v : forall i m,
  Sorted_at v ->
  (forall e a, In e m -> In a v -> fst e < at_ a) ->
  ActionMap.Update_from i v m = m ++ ActionMap.entries i v.
Proof.
  induction v as [|a v IH]; intros i m Hs Hm; simpl.
  - now rewrite app_nil_r.
  - pose proof (StronglySorted_inv Hs) as [Hs' Hall].
    rewrite Forall_forall in Hall.
    rewrite emplace_last.
    2:{ apply Forall_forall. intros e He. apply (Hm e a He). now left. }
    rewrite IH; [now rewrite <- app_assoc | assumption |].
    intros e b He Hb. apply in_app_or in He as [He|[<-|[]]].
    + apply (Hm e b He). now right.
    + simpl. apply (Hall b Hb).
Qed.

Lemma Update_sorted v : Sorted_at v -> ActionMap.Update v = ActionMap.entries 0 v.
Proof.
  intros Hs. unfold ActionMap.Update.
  rewrite Update_from_sorted; [reflexivity | assumption | intros ? ? []].
Qed.

(** [lower_bound] on the entries of a store returns the index of the first
    action at or after the key; everything before it is earlier. *)
Lemma lower_bound_entries k v : forall i key j,
  ActionMap.lower_bound k (ActionMap.entries i v) = Some (key, j) ->
  exists v1 b v2,
    v = v1 ++ b :: v2 /\ j = (i + length v1)%nat /\ key = at_ b /\ k <= at_ b /\
    Forall (fun a => at_ a < k) v1.
Proof.
  unfold ActionMap.lower_bound.
  induction v as [|a v IH]; intros i key j; simpl; [discriminate|].
  destruct (k <=? at_ a) eqn:Hk.
  - intros [= <- <-]. exists [], a, v. simpl. apply Z.leb_le in Hk.
    repeat split; auto.
  - intros H. apply IH in H as (v1 & b & v2 & -> & -> & -> & Hb & Hall).
    exists (a :: v1), b, v2. simpl. apply Z.leb_gt in Hk.
    repeat split; auto.
Qed.

(** ** Machine arithmetic inside its range *)

Lemma wrap_small z : Int32.in_range z -> Int32.wrap z = z.
Proof.
  unfold Int32.in_range, Int32.wrap, Int32.min_signed, Int32.max_signed,
    Int32.modulus, Int32.half_modulus.
  change (2 ^ 32) with 4294967296. change (2 ^ 31) with 2147483648.
  intros H. rewrite Z.mod_small by lia. lia.
Qed.

Lemma to_unsigned_small z : 0 <= z < Int32.modulus -> Int32.to_unsigned z = z.
Proof. intros H. now apply Z.mod_small. Qed.

Lemma valid_action_spec a :
  valid_action a = true <->
  0 <= at_ a <= Int32.max_signed /\ 0 <= pos a <= 100.
Proof.
  unfold valid_action. rewrite !andb_true_iff, !Z.leb_le. tauto.
Qed.

Lemma well_formed_spec v :
  well_formed v = true <->
  (forall a, In a v -> 0 <= at_ a <= Int32.max_signed /\ 0 <= pos a <= 100) /\
  Sorted_at v.
Proof.
  unfold well_formed.
  rewrite andb_true_iff, forallb_forall, strictly_increasing_Sorted_at.
  split; intros [H1 H2]; (split; [|assumption]); intros a Ha;
    apply valid_action_spec; auto.
Qed.

(** ** The scan of [GetPositionAtTime] *)

(** Actions that lie before the query time, followed by one that is not
    after it, are passed without a result. *)
Lemma loop_skip_prefix t v1 : forall v2,
  Forall (fun a => at_ a < t) v1 ->
  match v2 with [] => True | b :: _ => at_ b <= t end ->
  GetPositionAtTime_loop (v1 ++ v2) t = GetPositionAtTime_loop v2 t.
Proof.
  induction v1 as [|a v1 IH]; intros v2 Hall Hhd; [reflexivity|].
  apply Forall_cons_iff in Hall as [Ha Hall].
  specialize (IH v2 Hall Hhd). simpl.
  destruct (v1 ++ v2) as [|next rest] eqn:E.
  - apply app_eq_nil in E as [_ ->]. reflexivity.
  - assert (Hnext : at_ next <= t).
    { destruct v1 as [|x v1]; simpl in E.
      - subst v2. exact Hhd.
      - injection E as <- _. apply Forall_cons_iff in Hall as [Hx _]. lia. }
    replace (t <? at_ next) with false by (symmetry; apply Z.ltb_ge; lia).
    rewrite andb_false_r.
    replace (at_ a =? t) with false by (symmetry; apply Z.eqb_neq; lia).
    exact IH.
Qed.

Lemma loop_all_before t v :
  Forall (fun a => at_ a < t) v -> GetPositionAtTime_loop v t = None.
Proof.
  intros H. rewrite <- (app_nil_r v). now rewrite loop_skip_prefix.
Qed.

Lemma loop_all_after t v :
  Forall (fun a => t < at_ a) v -> GetPositionAtTime_loop v t = None.
Proof.
  induction 1 as [|a v Ha Hall IH]; [reflexivity|].
  simpl. destruct v as [|next rest]; [reflexivity|].
  replace (at_ a <? t) with false by (symmetry; apply Z.ltb_ge; lia).
  replace (at_ a =? t) with false by (symmetry; apply Z.eqb_neq; lia).
  exact IH.
Qed.

(** An action whose timestamp is the query time is reported by the scan,
    unless it is the last one (the scan stops one short of the end). *)
Lemma loop_exact t v a :
  Sorted_at v -> In a v -> at_ a = t ->
  GetPositionAtTime_loop v t = Some (Float32.of_int (pos a)) \/
  (GetPositionAtTime_loop v t = None /\ back v = Some a).
Proof.
  intros Hs Ha Ht. apply in_split in Ha as (v1 & v2 & ->).
  apply Sorted_at_app in Hs as (_ & _ & H12).
  rewrite loop_skip_prefix.
  - destruct v2 as [|next rest].
    + right. split; [reflexivity | apply back_app_last].
    + left. simpl.
      replace (at_ a <? t) with false by (symmetry; apply Z.ltb_ge; lia).
      now replace (at_ a =? t) with true by (symmetry; apply Z.eqb_eq; lia).
  - apply Forall_forall. intros x Hx.
    specialize (H12 x a Hx (or_introl eq_refl)). lia.
  - lia.
Qed.

Lemma loop_bracket t v1 a b v2 :
  Sorted_at (v1 ++ a :: b :: v2) -> at_ a < t < at_ b ->
  GetPositionAtTime_loop (v1 ++ a :: b :: v2) t = Some (interpolate a b t).
Proof.
  intros Hs Ht. apply Sorted_at_app in Hs as (_ & _ & H12).
  rewrite loop_skip_prefix.
  - simpl.
    replace (at_ a <? t) with true by (symmetry; apply Z.ltb_lt; lia).
    now replace (t <? at_ b) with true by (symmetry; apply Z.ltb_lt; lia).
  - apply Forall_forall. intros x Hx.
    specialize (H12 x a Hx (or_introl eq_refl)). lia.
  - lia.
Qed.

(** With a stale index, or with an index that describes a sorted store,
    [GetPositionAtTime] is the scan from index 0. *)
Lemma GetPositionAtTime_start_stale f t :
  SplineNeedsUpdate f = true -> GetPositionAtTime_start f t = 0%nat.
Proof. unfold GetPositionAtTime_start. now intros ->. Qed.

Lemma GetPositionAtTime_stale f t :
  SplineNeedsUpdate f = true ->
  GetPositionAtTime f t = position_scan (Actions (data f)) t.
Proof.
  intros H. unfold GetPositionAtTime, position_scan.
  rewrite GetPositionAtTime_start_stale by assumption.
  destruct (Actions (data f)) as [|a [|b v]]; reflexivity.
Qed.

Lemma GetPositionAtTime_indexed f t :
  Sorted_at (Actions (data f)) ->
  SplineNeedsUpdate f = false ->
  ScriptSpline f = ActionMap.Update (Actions (data f)) ->
  GetPositionAtTime f t = position_scan (Actions (data f)) t.
Proof.
  intros Hs Hflag Hmap. unfold GetPositionAtTime, position_scan.
  assert (E : GetPositionAtTime_loop
                (skipn (GetPositionAtTime_start f t) (Actions (data f))) t =
              GetPositionAtTime_loop (Actions (data f)) t).
  { unfold GetPositionAtTime_start. rewrite Hflag, Hmap, (Update_sorted _ Hs).
    simpl negb. cbv iota.
    destruct (ActionMap.lower_bound t (ActionMap.entries 0 (Actions (data f))))
      as [[key j]|] eqn:Hlb; [|reflexivity].
    apply lower_bound_entries in Hlb as (v1 & b & v2 & -> & -> & _ & _ & Hall).
    simpl. destruct (snoc_case v1) as [->|(v1' & e & ->)]; [reflexivity|].
    rewrite length_app. simpl length.
    replace (0 <? length v1' + 1)%nat with true by (symmetry; apply Nat.ltb_lt; lia).
    replace (pred (length v1' + 1)) with (length v1') by lia.
    rewrite <- !app_assoc. rewrite skipn_length_app.
    apply Forall_app in Hall as [Hall He]. apply Forall_cons_iff in He as [He _].
    symmetry. apply loop_skip_prefix; [assumption | simpl; lia]. }
  destruct (Actions (data f)) as [|a [|b v]]; try reflexivity.
  now rewrite E.
Qed.

Lemma GetPositionAtTime_scan f t :
  Sorted_at (Actions (data f)) -> index_ok f ->
  GetPositionAtTime f t = position_scan (Actions (data f)) t.
Proof.
  intros Hs [Hstale|Hmap].
  - now apply GetPositionAtTime_stale.
  - destruct (SplineNeedsUpdate f) eqn:Hflag.
    + now apply GetPositionAtTime_stale.
    + now apply GetPositionAtTime_indexed.
Qed.

(** C4 -- the index is an optimisation only.  On a store with strictly
    increasing timestamps, a funscript whose spline index is valid (flag
    clear, [ActionMap] built from the store) and a funscript with the same
    store and a stale index (flag set, scan from index 0) answer every
    position query alike. *)
Theorem GetPositionAtTime_index_agnostic (f g : Funscript) (t : Z) :
  strictly_increasing (Actions (data f)) = true ->
  SplineNeedsUpdate f = false ->
  ScriptSpline f = ActionMap.Update (Actions (data f)) ->
  Actions (data g) = Actions (data f) ->
  SplineNeedsUpdate g = true ->
  GetPositionAtTime f t = GetPositionAtTime g t.
Proof.
  rewrite strictly_increasing_Sorted_at. intros Hs Hflag Hmap Hsame Hstale.
  rewrite (GetPositionAtTime_indexed f t Hs Hflag Hmap).
  rewrite (GetPositionAtTime_stale g t Hstale). now rewrite Hsame.
Qed.

Lemma GetPositionAtTime_index_agnostic_witness :
  let v := [mkAction 0 0; mkAction 400 80; mkAction 1000 100; mkAction 1500 20] in
  let f := mkFunscript (mkData v []) (ActionMap.Update v) false false false in
  let g := mkFunscript (mkData v []) [] true false false in
  strictly_increasing (Actions (data f)) = true /\
  GetPositionAtTime f 1200 = GetPositionAtTime g 1200.
Proof.
  intros v f g. split; [reflexivity|].
  apply (GetPositionAtTime_index_agnostic f g 1200); reflexivity.
Defined.

(** On valid actions around the query time the [int32_t] subtractions of
    the interpolation do not wrap. *)
Lemma interpolate_exact a b t :
  valid_action a = true -> valid_action b = true -> at_ a < t < at_ b ->
  interpolate a b t =
  Float32.add (Float32.of_int (pos a))
    (Float32.mul
       (Float32.div (Float32.of_int (t - at_ a)) (Float32.of_int (at_ b - at_ a)))
       (Float32.of_int (pos b - pos a))).
Proof.
  rewrite !valid_action_spec. unfold Int32.max_signed, Int32.half_modulus.
  change (2 ^ 31) with 2147483648. intros [Ha Hpa] [Hb Hpb] Ht.
  unfold interpolate, Int32.sub.
  rewrite !wrap_small; [reflexivity | | |];
    unfold Int32.in_range, Int32.min_signed, Int32.max_signed, Int32.half_modulus;
    change (2 ^ 31) with 2147483648; lia.
Qed.

(** Positions between 0 and 100 convert to [float] without loss. *)
Lemma to_int_of_int_pos p :
  0 <= p <= 100 -> Float32.to_int (Float32.of_int p) = p.
Proof.
  intros Hp.
  assert (Hall : forallb (fun n => Float32.to_int (Float32.of_int (Z.of_nat n))
                                   =? Z.of_nat n) (seq 0 101) = true)
    by (vm_compute; reflexivity).
  rewrite forallb_forall in Hall.
  specialize (Hall (Z.to_nat p)). rewrite Z2Nat.id in Hall by lia.
  apply Z.eqb_eq, Hall, in_seq. lia.
Qed.

(** C3 -- the cases of [GetPositionAtTime] on a well-formed timeline whose
    index is stale or valid: 0 on an empty timeline; the position of the
    only action; the position of the action whose timestamp is the query
    time; between two neighbours [a], [b] with [a.at < t < b.at] the
    single-precision value of
    [a.pos + (t - a.at) / (b.at - a.at) * (b.pos - a.pos)]; the position of
    the last action beyond it.  On [(0,0), (1000,100)] the position at 500
    is 50. *)
Theorem GetPositionAtTime_cases (f : Funscript) (t : Z) :
  well_formed (Actions (data f)) = true ->
  index_ok f ->
  (Actions (data f) = [] -> GetPositionAtTime f t = Float32.of_int 0) /\
  (forall a, Actions (data f) = [a] ->
     GetPositionAtTime f t = Float32.of_int (pos a)) /\
  (forall a, In a (Actions (data f)) -> at_ a = t ->
     GetPositionAtTime f t = Float32.of_int (pos a)) /\
  (forall v1 a b v2,
     Actions (data f) = v1 ++ a :: b :: v2 -> at_ a < t < at_ b ->
     GetPositionAtTime f t =
     Float32.add (Float32.of_int (pos a))
       (Float32.mul
          (Float32.div (Float32.of_int (t - at_ a))
                       (Float32.of_int (at_ b - at_ a)))
          (Float32.of_int (pos b - pos a)))) /\
  (forall a, back (Actions (data f)) = Some a -> at_ a < t ->
     GetPositionAtTime f t = Float32.of_int (pos a)) /\
  (Actions (data f) = [mkAction 0 0; mkAction 1000 100] -> t = 500 ->
     GetPositionAtTime f t = Float32.of_int 50).
Proof.
  intros Hwf Hidx. apply well_formed_spec in Hwf as [Hvalid Hs].
  rewrite (GetPositionAtTime_scan f t Hs Hidx).
  assert (Hbracket : forall v1 a b v2,
            Actions (data f) = v1 ++ a :: b :: v2 -> at_ a < t < at_ b ->
            position_scan (Actions (data f)) t =
            Float32.add (Float32.of_int (pos a))
              (Float32.mul
                 (Float32.div (Float32.of_int (t - at_ a))
                              (Float32.of_int (at_ b - at_ a)))
                 (Float32.of_int (pos b - pos a)))).
  { intros v1 a b v2 E Ht. rewrite E in Hs, Hvalid |- *.
    unfold position_scan. rewrite (loop_bracket t v1 a b v2 Hs Ht).
    rewrite interpolate_exact; try assumption.
    - destruct v1 as [|x [|y v1]]; reflexivity.
    - apply valid_action_spec, Hvalid, in_or_app. right. now left.
    - apply valid_action_spec, Hvalid, in_or_app. right. right. now left. }
  repeat split.
  - now intros ->.
  - now intros a ->.
  - intros a Ha Ht. unfold position_scan.
    destruct (loop_exact t _ a Hs Ha Ht) as [E|[E Eb]]; rewrite E; [|rewrite Eb];
      destruct (Actions (data f)) as [|x [|y v]]; try reflexivity.
    + destruct Ha.
    + destruct Ha as [<-|[]]. reflexivity.
    + discriminate Eb.
    + simpl in Eb. now injection Eb as ->.
  - exact Hbracket.
  - intros a Hb Ht. unfold position_scan.
    rewrite loop_all_before, Hb.
    + destruct (Actions (data f)) as [|x [|y v]]; try reflexivity.
      * discriminate Hb.
      * simpl in Hb. now injection Hb as ->.
    + apply Forall_forall. intros x Hx.
      destruct (snoc_case (Actions (data f))) as [E|(v' & e & E)];
        rewrite E in Hx, Hb, Hs; [destruct Hx|].
      rewrite back_app_last in Hb. injection Hb as ->.
      apply in_app_or in Hx as [Hx|[<-|[]]]; [|assumption].
      apply Sorted_at_app in Hs as (_ & _ & H12).
      specialize (H12 x a Hx (or_introl eq_refl)). lia.
  - intros E ->. rewrite (Hbracket [] (mkAction 0 0) (mkAction 1000 100) [] E).
    + vm_compute. reflexivity.
    + simpl. lia.
Qed.

Lemma GetPositionAtTime_cases_witness :
  let f := mkFunscript (mkData [mkAction 0 0; mkAction 1000 100] [])
                       [] true false false in
  well_formed (Actions (data f)) = true /\
  GetPositionAtTime f 500 = Float32.of_int 50.
Proof.
  intros f.
  assert (Hwf : well_formed (Actions (data f)) = true) by reflexivity.
  assert (Hidx : index_ok f) by (left; reflexivity).
  split; [exact Hwf|].
  destruct (GetPositionAtTime_cases f 500 Hwf Hidx) as (_ & _ & _ & _ & _ & Hex).
  apply Hex; reflexivity.
Defined.

(** C10 -- before the first action.  On a timeline of at least two actions
    with strictly increasing timestamps, a query time earlier than the first
    timestamp yields the position of the last action; when the first and
    the last position differ (both between 0 and 100) the result is not the
    first action's position. *)
Theorem GetPositionAtTime_before_first
        (f : Funscript) (t : Z) (first second last : FunscriptAction)
        (rest : list FunscriptAction) :
  Actions (data f) = first :: second :: rest ->
  strictly_increasing (Actions (data f)) = true ->
  index_ok f ->
  back (Actions (data f)) = Some last ->
  t < at_ first ->
  GetPositionAtTime f t = Float32.of_int (pos last) /\
  (0 <= pos first <= 100 -> 0 <= pos last <= 100 -> pos last <> pos first ->
   GetPositionAtTime f t <> Float32.of_int (pos first)).
Proof.
  rewrite strictly_increasing_Sorted_at. intros E Hs Hidx Hb Ht.
  assert (Hres : GetPositionAtTime f t = Float32.of_int (pos last)).
  { rewrite (GetPositionAtTime_scan f t Hs Hidx). unfold position_scan.
    rewrite loop_all_after, Hb.
    - now rewrite E.
    - rewrite E in Hs |- *. apply StronglySorted_inv in Hs as [_ Hall].
      constructor; [assumption|].
      eapply Forall_impl; [|exact Hall]. unfold before. intros; lia. }
  split; [exact Hres|].
  intros Hf Hl Hne Heq. rewrite Hres in Heq. apply Hne.
  rewrite <- (to_int_of_int_pos (pos last) Hl).
  rewrite <- (to_int_of_int_pos (pos first) Hf). now rewrite Heq.
Qed.

Lemma GetPositionAtTime_before_first_witness :
  let v := [mkAction 100 10; mkAction 400 80; mkAction 1000 90] in
  let f := mkFunscript (mkData v []) (ActionMap.Update v) false false false in
  strictly_increasing (Actions (data f)) = true /\
  GetPositionAtTime f 50 = Float32.of_int 90 /\
  GetPositionAtTime f 50 <> Float32.of_int 10.
Proof.
  intros v f.
  assert (Hs : strictly_increasing (Actions (data f)) = true) by reflexivity.
  assert (Hidx : index_ok f) by (right; reflexivity).
  destruct (GetPositionAtTime_before_first
              f 50 (mkAction 100 10) (mkAction 400 80) (mkAction 1000 90)
              [mkAction 1000 90] eq_refl Hs Hidx eq_refl)
    as [Hlast Hnot]; [simpl; lia|].
  split; [exact Hs|]. split; [exact Hlast|].
  apply Hnot; simpl; lia.
Defined.

(** ** [std::remove_if] and the pruning of the selection *)

Section RemoveIf.
Context {A : Type}.
Implicit Types (p : A -> bool) (v w : list A).

Lemma assign_at_app w x y v :
  assign_at (length w) x (w ++ y :: v) = w ++ x :: v.
Proof. induction w as [|z w IH]; simpl; [reflexivity | now rewrite IH]. Qed.

Lemma skipn_app_length w v (n : nat) :
  skipn (length w + n) (w ++ v) = skipn n v.
Proof. induction w as [|z w IH]; simpl; [reflexivity | exact IH]. Qed.

(** The elements that survive, in order, fill the front; the slots behind
    them are untouched. *)
Lemma remove_if_loop_spec p pending : forall w j,
  let kept := w ++ filter (fun x => negb (p x)) pending in
  remove_if_loop p (w ++ j ++ pending) (length w) pending =
  (kept ++ skipn (length kept) (w ++ j ++ pending), length kept).
Proof.
  induction pending as [|x pending IH]; intros w j; simpl.
  - rewrite !app_nil_r. now rewrite skipn_length_app.
  - destruct (p x) eqn:Hx; simpl.
    + replace (w ++ j ++ x :: pending) with (w ++ (j ++ [x]) ++ pending)
        by (now rewrite <- (app_assoc j)).
      apply IH.
    + assert (Hk : forall (z : A) (r : list A),
                skipn (length (w ++ x :: filter (fun x => negb (p x)) pending))
                      ((w ++ [z]) ++ r) =
                skipn (length (filter (fun x => negb (p x)) pending)) r).
      { intros z r. rewrite <- (skipn_app_length (w ++ [z]) r).
        f_equal. rewrite !length_app. simpl. lia. }
      destruct j as [|y j]; simpl.
      * rewrite assign_at_app.
        replace (w ++ x :: pending) with ((w ++ [x]) ++ [] ++ pending)
          by (now rewrite <- app_assoc).
        replace (S (length w)) with (length (w ++ [x]))
          by (rewrite length_app; simpl; lia).
        rewrite IH. now rewrite <- !app_assoc.
      * rewrite assign_at_app.
        replace (w ++ x :: j ++ x :: pending)
          with ((w ++ [x]) ++ (j ++ [x]) ++ pending)
          by (now rewrite <- !app_assoc).
        replace (S (length w)) with (length (w ++ [x]))
          by (rewrite length_app; simpl; lia).
        rewrite IH. rewrite <- !app_assoc. simpl. f_equal. f_equal.
        replace (w ++ x :: j ++ x :: pending)
          with ((w ++ [x]) ++ j ++ x :: pending)
          by (now rewrite <- !app_assoc).
        replace (w ++ y :: j ++ x :: pending)
          with ((w ++ [y]) ++ j ++ x :: pending)
          by (now rewrite <- !app_assoc).
        now rewrite !Hk.
Qed.

Lemma remove_if_spec p v :
  let kept := filter (fun x => negb (p x)) v in
  remove_if p v = (kept ++ skipn (length kept) v, length kept).
Proof. exact (remove_if_loop_spec p v [] []). Qed.

Lemma filter_length_le p v : (length (filter p v) <= length v)%nat.
Proof.
  induction v as [|x v IH]; simpl; [lia|]. destruct (p x); simpl; lia.
Qed.

(** [remove_if] followed by the one-element [erase(it)]. *)
Lemma remove_if_erase_one p v :
  let kept := filter (fun x => negb (p x)) v in
  let '(v', it) := remove_if p v in
  (if (it <? length v')%nat then erase_at it v' else v') =
  kept ++ skipn (S (length kept)) v.
Proof.
  intros kept. rewrite remove_if_spec. fold kept.
  pose proof (filter_length_le (fun x => negb (p x)) v) as Hle. fold kept in Hle.
  rewrite length_app, length_skipn.
  destruct (length kept <? length kept + (length v - length kept))%nat eqn:Hlt.
  - unfold erase_at. rewrite firstn_length_app. f_equal.
    replace (S (length kept)) with (length kept + 1)%nat by lia.
    rewrite skipn_app_length. now rewrite skipn_skipn, Nat.add_comm.
  - apply Nat.ltb_ge in Hlt.
    rewrite !skipn_all2 by lia. reflexivity.
Qed.

(** [remove_if] followed by [erase(it, end())]: the erase-remove idiom. *)
Lemma remove_if_erase_from p v :
  let '(v', it) := remove_if p v in
  erase_from it v' = filter (fun x => negb (p x)) v.
Proof.
  rewrite remove_if_spec. unfold erase_from. apply firstn_length_app.
Qed.

End RemoveIf.

(** What [checkForInvalidatedActions] leaves in the selection: the entries
    that are still found, followed by the former entries from the slot
    after the new end on. *)
Lemma selection_checkForInvalidatedActions f :
  let found := fun selected =>
                 match getAction f selected with
                 | None => false
                 | Some _ => true
                 end in
  let kept := filter found (selection (data f)) in
  selection (data (checkForInvalidatedActions f)) =
  kept ++ skipn (S (length kept)) (selection (data f)).
Proof.
  intros found kept. unfold checkForInvalidatedActions.
  pose proof (remove_if_erase_one
                (fun selected => match getAction f selected with
                                 | None => true
                                 | Some _ => false
                                 end) (selection (data f))) as H.
  cbv zeta in H.
  replace (filter _ (selection (data f))) with kept in H.
  2:{ unfold kept, found. apply filter_ext. intros a.
      now destruct (getAction f a). }
  destruct (remove_if _ _) as [v' it].
  destruct (it <? length v')%nat; simpl; exact H.
Qed.

(** With a stale index an entry is found exactly when the store holds a
    value-equal action. *)
Lemma getAction_stale f a :
  SplineNeedsUpdate f = true ->
  (exists i, getAction f a = Some i) <-> In a (Actions (data f)).
Proof.
  intros Hflag. unfold getAction. rewrite Hflag. simpl.
  destruct (find_if (fun x => action_eqb x a) (Actions (data f))
              <? length (Actions (data f)))%nat eqn:Hlt.
  - apply Nat.ltb_lt, find_if_found in Hlt as (x & Hx & Hp).
    unfold action_eqb in Hp. apply andb_true_iff in Hp as [Hat Hpos].
    apply Z.eqb_eq in Hat, Hpos.
    assert (x = a) as -> by (destruct x, a; simpl in *; congruence).
    split; [intros _; assumption | eauto].
  - apply Nat.ltb_ge in Hlt. split; [intros [i [=]]|].
    intros Ha. exfalso.
    assert (Hf : (find_if (fun x => action_eqb x a) (Actions (data f))
                  < length (Actions (data f)))%nat).
    { apply find_if_found. exists a. split; [assumption|].
      unfold action_eqb. now rewrite !Z.eqb_refl. }
    lia.
Qed.

(** The pruning is sound when at most one selected action lost its
    counterpart: one erased slot is then enough. *)
Lemma checkForInvalidatedActions_sound_one f :
  SplineNeedsUpdate f = true ->
  (length (selection (data f)) <=
   S (length (filter (fun s => match getAction f s with
                               | None => false
                               | Some _ => true
                               end) (selection (data f)))))%nat ->
  forall s, In s (selection (data (checkForInvalidatedActions f))) ->
            In s (Actions (data (checkForInvalidatedActions f))).
Proof.
  intros Hflag Hone s. rewrite Actions_checkForInvalidatedActions.
  rewrite selection_checkForInvalidatedActions.
  rewrite skipn_all2 by lia. rewrite app_nil_r, filter_In.
  intros [_ Hfound]. apply (getAction_stale f s Hflag).
  destruct (getAction f s) as [i|]; [eauto | discriminate].
Qed.

(** The store after [RemoveActionsInInterval]: the actions outside the
    interval. *)
Lemma Actions_RemoveActionsInInterval fromMs toMs f :
  Actions (data (RemoveActionsInInterval fromMs toMs f)) =
  filter (fun a => negb ((fromMs <=? at_ a) && (at_ a <=? toMs)))
         (Actions (data f)).
Proof.
  unfold RemoveActionsInInterval.
  pose proof (remove_if_erase_from
                (fun a => (fromMs <=? at_ a) && (at_ a <=? toMs))
                (Actions (data f))) as H.
  destruct (remove_if _ _) as [v it]. simpl.
  now rewrite Actions_checkForInvalidatedActions.
Qed.

(** C2 -- selection soundness is lost by [RemoveActions].  All three
    actions are selected and the last two are removed: [remove_if] reports
    the new end at slot 1, the single-element [erase(it)] of
    [checkForInvalidatedActions] drops slot 1 only, and the removed action
    [(200, 100)] stays selected without a counterpart in the store. *)
Theorem RemoveActions_leaves_selection_unsound :
  let a := mkAction 0 0 in
  let b := mkAction 100 50 in
  let c := mkAction 200 100 in
  let f := mkFunscript (mkData [a; b; c] [a; b; c]) [] true false false in
  let g := RemoveActions [b; c] f in
  Actions (data g) = [a] /\
  selection (data g) = [a; c] /\
  In c (selection (data g)) /\
  ~ In c (Actions (data g)).
Proof.
  intros a b c f g. repeat split.
  - right. now left.
  - intros [H|[]]. discriminate H.
Qed.

(** The same defect through [RemoveActionsInInterval]; with a valid spline
    index nothing is pruned at all, because [getAction] then asks the index,
    which still lists the removed timestamps when the selection is checked. *)
Lemma RemoveActionsInInterval_leaves_selection_unsound :
  let a := mkAction 0 0 in
  let b := mkAction 100 50 in
  let c := mkAction 200 100 in
  let stale := mkFunscript (mkData [a; b; c] [a; b; c]) [] true false false in
  let valid := mkFunscript (mkData [a; b; c] [a; b; c])
                           (ActionMap.Update [a; b; c]) false false false in
  data (RemoveActionsInInterval 100 200 stale) = mkData [a] [a; c] /\
  data (RemoveActionsInInterval 100 200 valid) = mkData [a] [a; b; c].
Proof. split; reflexivity. Qed.

(** ** Selection by time *)

Lemma action_eqb_eq a b : action_eqb a b = true <-> a = b.
Proof.
  unfold action_eqb. rewrite andb_true_iff, !Z.eqb_eq.
  destruct a, b; simpl. split; [intros [-> ->]; reflexivity | intros [= -> ->]; auto].
Qed.

Lemma action_eq_dec (a b : FunscriptAction) : {a = b} + {a <> b}.
Proof.
  destruct (action_eqb a b) eqn:E.
  - left. now apply action_eqb_eq.
  - right. intros H. apply action_eqb_eq in H. congruence.
Qed.

(** [std::find] splits the vector at the first occurrence. *)
Lemma find_action_split (a : FunscriptAction) v :
  let it := find_if (fun x => action_eqb x a) v in
  (it = length v /\ ~ In a v) \/
  (exists v1 v2, v = v1 ++ a :: v2 /\ it = length v1 /\ ~ In a v1).
Proof.
  intros it. subst it.
  destruct (find_if_split (fun x => action_eqb x a) v)
    as (v1 & v2 & -> & Hlen & H1 & H2).
  rewrite <- Hlen.
  assert (Hn1 : ~ In a v1).
  { intros Hin. rewrite Forall_forall in H1. specialize (H1 a Hin).
    assert (action_eqb a a = true) by now apply action_eqb_eq. congruence. }
  destruct v2 as [|y v2].
  - left. rewrite app_nil_r. auto.
  - apply action_eqb_eq in H2 as ->. right. exists v1, v2. auto.
Qed.

Lemma toggle_absent a v : ~ In a v -> toggle a v = v ++ [a].
Proof.
  intros Hn. unfold toggle.
  destruct (find_action_split a v) as [[E _]|(v1 & v2 & -> & _ & _)].
  - now rewrite E, Nat.ltb_irrefl.
  - destruct Hn. apply in_or_app. right. now left.
Qed.

Lemma toggle_NoDup a v :
  NoDup v ->
  NoDup (toggle a v) /\
  forall x, In x (toggle a v) <-> (In x v /\ x <> a) \/ (x = a /\ ~ In a v).
Proof.
  intros Hnd. unfold toggle.
  destruct (find_action_split a v) as [[E Hn]|(v1 & v2 & -> & E & Hn1)]; rewrite E.
  - rewrite Nat.ltb_irrefl. split.
    + apply NoDup_app; [assumption | repeat constructor; intros [] |].
      intros x Hx [<-|[]]. contradiction.
    + intros x. rewrite in_app_iff. simpl. split.
      * intros [Hx|[<-|[]]]; [left | right]; split; auto. congruence.
      * intros [[Hx _]|[-> _]]; auto.
  - replace (length v1 <? length (v1 ++ a :: v2))%nat with true.
    2:{ symmetry. apply Nat.ltb_lt. rewrite length_app. simpl. lia. }
    rewrite erase_at_app.
    pose proof (NoDup_remove_1 _ _ _ Hnd) as Hnd'.
    pose proof (NoDup_remove_2 _ _ _ Hnd) as Hn.
    split; [assumption|].
    intros x. rewrite !in_app_iff. simpl. split.
    + intros Hx. left. split; [tauto|]. intros ->. apply Hn, in_or_app. tauto.
    + intros [[[Hx|[<-|Hx]] Hne]|[-> Hna]]; tauto.
Qed.

Lemma ToggleSelection_data a f :
  data (snd (ToggleSelection a f)) =
  mkData (Actions (data f)) (toggle a (selection (data f))).
Proof.
  unfold ToggleSelection, toggle. simpl.
  destruct (_ <? _)%nat; reflexivity.
Qed.

(** On a sorted store the loop of [SelectTime] toggles the actions of the
    interval, in order, and nothing else. *)
Lemma SelectTime_loop_data from_ms to_ms v : forall f,
  Sorted_at v ->
  data (SelectTime_loop v from_ms to_ms f) =
  mkData (Actions (data f))
         (fold_left (fun s a => toggle a s)
                    (filter (in_interval from_ms to_ms) v)
                    (selection (data f))).
Proof.
  induction v as [|a v IH]; intros f Hs; cbn [SelectTime_loop filter].
  - now destruct (data f).
  - pose proof (StronglySorted_inv Hs) as [Hs' Hall].
    unfold in_interval at 1.
    destruct ((from_ms <=? at_ a) && (at_ a <=? to_ms)) eqn:Hin;
      cbn [fold_left].
    + rewrite IH by assumption. now rewrite ToggleSelection_data.
    + destruct (to_ms <? at_ a) eqn:Hgt.
      * rewrite filter_none; [now destruct (data f)|].
        intros x Hx. rewrite Forall_forall in Hall. specialize (Hall x Hx).
        unfold before in Hall. apply Z.ltb_lt in Hgt. unfold in_interval.
        apply andb_false_iff. right. apply Z.leb_gt. lia.
      * now apply IH.
Qed.

Lemma fold_toggle_fresh l : forall s,
  NoDup (s ++ l) -> fold_left (fun s a => toggle a s) l s = s ++ l.
Proof.
  induction l as [|a l IH]; intros s Hnd; simpl; [now rewrite app_nil_r|].
  rewrite toggle_absent.
  - rewrite IH; rewrite <- app_assoc; [reflexivity | exact Hnd].
  - apply NoDup_remove_2 in Hnd. intros Hin. apply Hnd, in_or_app. now left.
Qed.

Lemma fold_toggle_NoDup l : forall s,
  NoDup l -> NoDup s ->
  let r := fold_left (fun s a => toggle a s) l s in
  NoDup r /\
  forall x, In x r <-> (In x s /\ ~ In x l) \/ (In x l /\ ~ In x s).
Proof.
  induction l as [|a l IH]; intros s Hl Hnd; simpl.
  - split; [assumption|]. intros x. tauto.
  - apply NoDup_cons_iff in Hl as [Hal Hl].
    destruct (toggle_NoDup a s Hnd) as [Hnd' Hmem].
    destruct (IH (toggle a s) Hl Hnd') as [Hr Hin].
    split; [exact Hr|].
    intros x. rewrite Hin, Hmem.
    destruct (in_dec action_eq_dec x s), (in_dec action_eq_dec x l),
      (action_eq_dec x a) as [Heq|Hne];
      try subst x; intuition congruence.
Qed.

(** [sortActions] permutes its argument into ascending order. *)
Lemma sort_insert_Permutation a v : Permutation (a :: v) (sort_insert a v).
Proof.
  induction v as [|b v IH]; simpl; [reflexivity|].
  destruct (at_ a <? at_ b); [reflexivity|].
  rewrite perm_swap. now apply perm_skip.
Qed.

Lemma sort_insert_Sorted_le a v : Sorted_le v -> Sorted_le (sort_insert a v).
Proof.
  unfold Sorted_le. induction 1 as [|b v Hs IH Hall]; simpl.
  - repeat constructor.
  - destruct (at_ a <? at_ b) eqn:Hab.
    + apply Z.ltb_lt in Hab. constructor; [now constructor|].
      constructor; [lia|]. eapply Forall_impl; [|exact Hall]. simpl. intros; lia.
    + apply Z.ltb_ge in Hab. constructor; [assumption|].
      eapply Permutation_Forall; [apply sort_insert_Permutation|].
      now constructor.
Qed.

Lemma sortActions_from acc v :
  Sorted_le acc ->
  let r := fold_left (fun acc a => sort_insert a acc) v acc in
  Sorted_le r /\ Permutation (acc ++ v) r.
Proof.
  revert acc. induction v as [|a v IH]; intros acc Hacc; simpl.
  - split; [assumption | now rewrite app_nil_r].
  - destruct (IH (sort_insert a acc) (sort_insert_Sorted_le a acc Hacc)) as [Hs Hp].
    split; [exact Hs|]. rewrite <- Hp.
    rewrite <- Permutation_middle.
    apply (Permutation_app_tail v (sort_insert_Permutation a acc)).
Qed.

Lemma sortActions_spec v :
  Sorted_le (sortActions v) /\ Permutation v (sortActions v).
Proof. apply (sortActions_from [] v). constructor. Qed.

(** C7 (amended) -- [SelectTime] toggles.  On a store with strictly
    increasing timestamps: with [clear] the selection becomes exactly the
    actions of the inclusive interval, in store order; without [clear] (and
    a prior selection free of repetitions) an action is selected afterwards
    exactly when it was selected and is not an action of the interval, or is
    an action of the interval and was not selected, and the selection is in
    ascending timestamp order.  The store is never changed. *)
Theorem SelectTime_toggles (from_ms to_ms : Z) (f : Funscript) :
  strictly_increasing (Actions (data f)) = true ->
  selection (data (SelectTime from_ms to_ms true f)) =
    filter (in_interval from_ms to_ms) (Actions (data f)) /\
  (NoDup (selection (data f)) ->
   let g := SelectTime from_ms to_ms false f in
   Sorted_le (selection (data g)) /\
   forall x,
     In x (selection (data g)) <->
     (In x (selection (data f)) /\
      ~ (In x (Actions (data f)) /\ from_ms <= at_ x <= to_ms)) \/
     (In x (Actions (data f)) /\ from_ms <= at_ x <= to_ms /\
      ~ In x (selection (data f)))) /\
  (forall clear,
     Actions (data (SelectTime from_ms to_ms clear f)) = Actions (data f)).
Proof.
  rewrite strictly_increasing_Sorted_at. intros Hs.
  assert (Hnd : NoDup (filter (in_interval from_ms to_ms) (Actions (data f)))).
  { apply NoDup_filter. apply Sorted_at_NoDup in Hs.
    now apply NoDup_map_inv in Hs. }
  split; [|split].
  - unfold SelectTime. simpl.
    rewrite (SelectTime_loop_data from_ms to_ms _ (ClearSelection f) Hs). simpl.
    now rewrite fold_toggle_fresh.
  - intros Hsel g. subst g. unfold SelectTime. simpl.
    rewrite (SelectTime_loop_data from_ms to_ms _ f Hs). simpl.
    destruct (fold_toggle_NoDup _ _ Hnd Hsel) as [_ Hin].
    destruct (sortActions_spec
                (fold_left (fun s a => toggle a s)
                           (filter (in_interval from_ms to_ms) (Actions (data f)))
                           (selection (data f)))) as [Hsorted Hperm].
    split; [exact Hsorted|].
    intros x. split.
    + intros Hx. apply (Permutation_in _ (Permutation_sym Hperm)) in Hx.
      apply Hin in Hx. rewrite filter_In in Hx. unfold in_interval in Hx.
      rewrite andb_true_iff, !Z.leb_le in Hx. tauto.
    + intros Hx. apply (Permutation_in _ Hperm). apply Hin.
      rewrite filter_In. unfold in_interval.
      rewrite andb_true_iff, !Z.leb_le. tauto.
  - intros clear. unfold SelectTime.
    destruct clear; simpl.
    + now rewrite (SelectTime_loop_data from_ms to_ms _ (ClearSelection f) Hs).
    + now rewrite (SelectTime_loop_data from_ms to_ms _ f Hs).
Qed.

Lemma SelectTime_toggles_witness :
  let f := mkFunscript
             (mkData [mkAction 0 0; mkAction 10 10; mkAction 20 5] [mkAction 0 0])
             [] true false false in
  strictly_increasing (Actions (data f)) = true /\
  selection (data (SelectTime 0 10 true f)) = [mkAction 0 0; mkAction 10 10] /\
  In (mkAction 10 10) (selection (data (SelectTime 0 10 false f))).
Proof.
  intros f.
  assert (Hs : strictly_increasing (Actions (data f)) = true) by reflexivity.
  assert (Hnd : NoDup (selection (data f)))
    by (simpl; repeat constructor; intros []).
  split; [exact Hs|].
  destruct (SelectTime_toggles 0 10 f Hs) as (Hclear & Hmerge & _).
  split; [rewrite Hclear; reflexivity|].
  destruct (Hmerge Hnd) as [_ Hin]. apply Hin. right. simpl.
  split; [right; now left|]. split; [lia|].
  intros [H|[]]. discriminate H.
Defined.

(** C7 as stated fails: the action [(0,0)] is selected and lies in the
    interval; [SelectTime(0, 10, false)] deselects it. *)
Lemma SelectTime_not_a_merge :
  let f := mkFunscript (mkData [mkAction 0 0; mkAction 10 10] [mkAction 0 0])
                       [] true false false in
  selection (data (SelectTime 0 10 false f)) = [mkAction 10 10] /\
  ~ merges_selection 0 10 f (SelectTime 0 10 false f).
Proof.
  intros f. split; [reflexivity|].
  intros [_ Hkeep]. specialize (Hkeep (mkAction 0 0) (or_introl eq_refl)).
  destruct Hkeep as [H|[]]. discriminate H.
Qed.

(** ** The nearest action *)

Ltac int32_unfold :=
  unfold Int32.in_range, Int32.to_unsigned, Int32.max_signed, Int32.min_signed,
    Int32.modulus, Int32.half_modulus in *;
  change (2 ^ 32) with 4294967296 in *;
  change (2 ^ 31) with 2147483648 in *.

Lemma wrap_to_unsigned z : Int32.wrap (Int32.to_unsigned z) = Int32.wrap z.
Proof.
  unfold Int32.wrap, Int32.to_unsigned. now rewrite Zplus_mod_idemp_l.
Qed.

Section NearestAction.
Variables (actions : list FunscriptAction) (t maxErr : Z).
Hypothesis Hvalid : forall a, In a actions -> 0 <= at_ a <= Int32.max_signed.
Hypothesis Hsorted : Sorted_at actions.
Hypothesis Ht : 0 <= t <= Int32.max_signed.
Hypothesis Herr : 0 <= maxErr <= Int32.max_signed.

Lemma half_tolerance : 0 <= maxErr / 2 <= maxErr.
Proof.
  split; [apply Z.div_pos; lia|].
  apply Z.div_le_upper_bound; lia.
Qed.

(** Inside the value ranges the unsigned comparisons and the [int32_t]
    arithmetic of the loop are the mathematical ones. *)
Lemma guard_exact a :
  In a actions ->
  (Int32.to_unsigned (Int32.to_unsigned t + maxErr / 2)
     <? Int32.to_unsigned (at_ a)) = (t + maxErr / 2 <? at_ a).
Proof.
  intros Ha. specialize (Hvalid a Ha). pose proof half_tolerance as Hh.
  rewrite (to_unsigned_small t), (to_unsigned_small (at_ a)),
    (to_unsigned_small (t + maxErr / 2)); [reflexivity | | |];
    int32_unfold; lia.
Qed.

Lemma error_exact a :
  In a actions ->
  Int32.abs (Int32.sub t (at_ a)) = distance t a /\
  Int32.to_unsigned (distance t a) = distance t a /\
  distance t a <= Int32.max_signed.
Proof.
  intros Ha. specialize (Hvalid a Ha).
  unfold Int32.abs, Int32.sub, distance.
  rewrite (wrap_small (t - at_ a)) by (int32_unfold; lia).
  rewrite wrap_small by (int32_unfold; lia).
  rewrite to_unsigned_small by (int32_unfold; lia).
  repeat split. int32_unfold; lia.
Qed.

(** The loop may stop with its current candidate as soon as every action
    still ahead is outside the window or strictly farther than the
    candidate. *)
Lemma loop_inv_conclude seen rest se cur :
  actions = seen ++ rest ->
  loop_inv actions t maxErr seen se cur ->
  (forall b, In b rest -> in_window t maxErr b ->
             match cur with
             | Some j => forall c, nth_error actions j = Some c ->
                                   distance t c < distance t b
             | None => False
             end) ->
  nearest_in_window actions t maxErr cur.
Proof.
  intros E Hinv Hrest. destruct cur as [j|]; simpl in *.
  - destruct Hinv as (c & Hj & Hc & Hw & _ & Hbest).
    exists c. split; [assumption|]. split; [assumption|].
    intros b Hb Hwb. rewrite E in Hb. apply in_app_or in Hb as [Hb|Hb].
    + now apply Hbest.
    + specialize (Hrest b Hb Hwb c Hj). split; lia.
  - destruct Hinv as [_ Hnone]. intros a Ha Hw. rewrite E in Ha.
    apply in_app_or in Ha as [Ha|Ha]; [now apply (Hnone a) | eauto].
Qed.

Lemma loop_nearest rest : forall seen se cur,
  actions = seen ++ rest ->
  loop_inv actions t maxErr seen se cur ->
  nearest_in_window actions t maxErr
    (getActionAtTime_loop rest (length seen) t maxErr se cur).
Proof.
  induction rest as [|a rest IH]; intros seen se cur E Hinv.
  - simpl. apply (loop_inv_conclude seen [] se cur E Hinv). intros b [].
  - assert (Ha : In a actions) by (rewrite E; apply in_or_app; right; now left).
    assert (Hahead : forall b, In b (a :: rest) -> at_ a <= at_ b).
    { rewrite E in Hsorted. apply Sorted_at_app in Hsorted as (_ & Hs & _).
      apply StronglySorted_inv in Hs as [_ Hall]. rewrite Forall_forall in Hall.
      intros b [<-|Hb]; [lia|]. specialize (Hall b Hb). unfold before in Hall. lia. }
    assert (Hbehind : forall c, In c seen -> at_ c < at_ a).
    { rewrite E in Hsorted. apply Sorted_at_app in Hsorted as (_ & _ & H12).
      intros c Hc. apply H12; [assumption | now left]. }
    assert (E' : actions = (seen ++ [a]) ++ rest) by (now rewrite <- app_assoc).
    assert (Hnth : nth_error actions (length seen) = Some a).
    { rewrite E, nth_error_app2, Nat.sub_diag by lia. reflexivity. }
    pose proof half_tolerance as Hh.
    destruct (error_exact a Ha) as (Herror & Hu & Hmax).
    cbn [getActionAtTime_loop]. rewrite (guard_exact a Ha), Herror, Hu.
    replace (S (length seen)) with (length (seen ++ [a]))
      by (rewrite length_app; simpl; lia).
    destruct (t + maxErr / 2 <? at_ a) eqn:Hguard.
    + (* past the window: break *)
      apply Z.ltb_lt in Hguard.
      apply (loop_inv_conclude seen (a :: rest) se cur E Hinv).
      intros b Hb Hw. apply Hahead in Hb. unfold in_window in Hw. lia.
    + apply Z.ltb_ge in Hguard.
      destruct (distance t a <=? maxErr) eqn:Htol.
      * apply Z.leb_le in Htol.
        assert (Hwa : in_window t maxErr a)
          by (unfold in_window, distance in *; lia).
        destruct (distance t a <=? se) eqn:Hbetter.
        -- (* a new candidate *)
           apply Z.leb_le in Hbetter. apply (IH _ _ _ E'). simpl.
           exists a. split; [assumption|].
           split; [apply in_or_app; right; now left|].
           split; [assumption|]. split; [reflexivity|].
           intros b Hb Hwb. apply in_app_or in Hb as [Hb|[<-|[]]]; [|lia].
           split; [|intros _; apply Hbehind in Hb; lia].
           destruct cur as [j|]; simpl in Hinv.
           ++ destruct Hinv as (c & _ & _ & _ & -> & Hbest).
              specialize (Hbest b Hb Hwb). lia.
           ++ destruct Hinv as [_ Hnone]. now destruct (Hnone b Hb).
        -- (* farther than the candidate: break *)
           apply Z.leb_gt in Hbetter.
           apply (loop_inv_conclude seen (a :: rest) se cur E Hinv).
           intros b Hb Hw. apply Hahead in Hb.
           destruct cur as [j|]; simpl in Hinv.
           ++ destruct Hinv as (c & Hj & Hc & _ & -> & _).
              intros c' Hj'. rewrite Hj in Hj'. injection Hj' as <-.
              apply Hbehind in Hc. unfold distance in *. lia.
           ++ destruct Hinv as [-> _]. lia.
      * (* before the window: skipped *)
        apply Z.leb_gt in Htol. apply (IH _ _ _ E').
        assert (Hout : at_ a < t - maxErr) by (unfold distance in *; lia).
        destruct cur as [j|]; simpl in *.
        -- destruct Hinv as (c & _ & Hc & Hw & _).
           apply Hbehind in Hc. unfold in_window in Hw. lia.
        -- destruct Hinv as [-> Hnone]. split; [reflexivity|].
           intros b Hb Hw. apply in_app_or in Hb as [Hb|[<-|[]]].
           ++ now apply (Hnone b).
           ++ unfold in_window in Hw. lia.
Qed.

(** The start index taken from a valid spline index only skips actions
    that lie before the window. *)
Lemma getActionAtTime_start_split f :
  SplineNeedsUpdate f = true \/ ScriptSpline f = ActionMap.Update actions ->
  exists seen rest,
    actions = seen ++ rest /\
    getActionAtTime_start f t maxErr = length seen /\
    forall a, In a seen -> ~ in_window t maxErr a.
Proof.
  intros Hidx. unfold getActionAtTime_start.
  destruct (SplineNeedsUpdate f) eqn:Hflag; simpl.
  - exists [], actions. repeat split. intros a [].
  - destruct Hidx as [Hidx|Hidx]; [discriminate|].
    rewrite Hidx, (Update_sorted _ Hsorted), wrap_to_unsigned.
    rewrite (to_unsigned_small t) by (int32_unfold; lia).
    rewrite wrap_small by (int32_unfold; lia).
    destruct (ActionMap.lower_bound (t - maxErr) (ActionMap.entries 0 actions))
      as [[key j]|] eqn:Hlb.
    + apply lower_bound_entries in Hlb as (v1 & b & v2 & E & -> & _ & _ & Hall).
      exists v1, (b :: v2). repeat split; [assumption|].
      intros a Ha Hw. rewrite Forall_forall in Hall. specialize (Hall a Ha).
      unfold in_window in Hw. lia.
    + exists [], actions. repeat split. intros a [].
Qed.

Lemma getActionAtTime_nearest f :
  SplineNeedsUpdate f = true \/ ScriptSpline f = ActionMap.Update actions ->
  nearest_in_window actions t maxErr (getActionAtTime f actions t maxErr).
Proof.
  intros Hidx. unfold getActionAtTime.
  destruct (getActionAtTime_start_split f Hidx) as (seen & rest & E & -> & Hout).
  rewrite E at 2. rewrite skipn_length_app.
  apply loop_nearest; [assumption|]. simpl. auto.
Qed.

End NearestAction.

(** C6 (amended) -- the nearest action of the window.  For well-formed
    [actions] (valid, strictly increasing timestamps), a query time and a
    tolerance between 0 and [INT32_MAX], and a spline index that is stale or
    built from [actions], [getActionAtTime] returns the action nearest to
    the query time among those with
    [t - maxErr <= at <= t + maxErr / 2]; of two equally near actions it
    returns the later one; it returns nothing exactly when no action lies
    in that window. *)
Theorem getActionAtTime_nearest_in_window
        (f : Funscript) (actions : list FunscriptAction) (t maxErr : Z) :
  well_formed actions = true ->
  0 <= t <= Int32.max_signed ->
  0 <= maxErr <= Int32.max_signed ->
  SplineNeedsUpdate f = true \/ ScriptSpline f = ActionMap.Update actions ->
  nearest_in_window actions t maxErr (getActionAtTime f actions t maxErr).
Proof.
  intros Hwf Ht Herr Hidx. apply well_formed_spec in Hwf as [Hvalid Hs].
  apply getActionAtTime_nearest; try assumption.
  intros a Ha. now apply Hvalid.
Qed.

Lemma getActionAtTime_nearest_in_window_witness :
  let actions := [mkAction 0 0; mkAction 20 0; mkAction 200 0] in
  let f := mkFunscript (mkData actions []) (ActionMap.Update actions)
                       false false false in
  well_formed actions = true /\
  getActionAtTime f actions 10 100 = Some 1%nat /\
  nearest_in_window actions 10 100 (getActionAtTime f actions 10 100).
Proof.
  intros actions f. split; [reflexivity|]. split; [reflexivity|].
  apply (getActionAtTime_nearest_in_window f actions 10 100).
  - reflexivity.
  - int32_unfold; lia.
  - int32_unfold; lia.
  - right. reflexivity.
Defined.

(** C6 as stated fails twice.  An action at the edge of the tolerance but
    more than half of it ahead of the query time is not returned; of two
    actions equally near the later one is returned, not the first. *)
Lemma getActionAtTime_not_nearest_within_tolerance :
  let f := mkFunscript (mkData [] []) [] true false false in
  (getActionAtTime f [mkAction 10 0] 0 10 = None /\
   ~ nearest_within_tolerance [mkAction 10 0] 0 10
       (getActionAtTime f [mkAction 10 0] 0 10)) /\
  (getActionAtTime f [mkAction 0 0; mkAction 20 0] 10 100 = Some 1%nat /\
   ~ nearest_within_tolerance [mkAction 0 0; mkAction 20 0] 10 100
       (getActionAtTime f [mkAction 0 0; mkAction 20 0] 10 100)).
Proof.
  intros f. split; (split; [reflexivity|]).
  - change (getActionAtTime f [mkAction 10 0] 0 10) with (@None nat).
    intros H. apply (H (mkAction 10 0)); [now left|].
    unfold within_tolerance, distance. simpl. lia.
  - change (getActionAtTime f [mkAction 0 0; mkAction 20 0] 10 100)
      with (Some 1%nat).
    intros (a & Ha & _ & _ & Hfirst). simpl in Ha. injection Ha as <-.
    specialize (Hfirst 0%nat (mkAction 0 0) eq_refl).
    unfold within_tolerance, distance in Hfirst. simpl in Hfirst.
    assert (1 <= 0)%nat by (apply Hfirst; lia). lia.
Qed.

(** ** Equalizing the selection *)

Section IndexedUpdate.
Context {A : Type}.
Implicit Types (v : list A).



Lemma length_assign_at v : forall i x, length (assign_at i x v) = length v.
Proof.
  induction v as [|y v IH]; intros i x; [reflexivity|].
  destruct i as [|i]; simpl; [reflexivity | now rewrite IH].
Qed.




Lemma back_nth_error v : back v = nth_error v (length v - 1).
Proof.
  induction v as [|x v IH]; [reflexivity|].
  destruct v as [|y v]; [reflexivity|].
  rewrite back_cons, IH. simpl. now rewrite Nat.sub_0_r.
Qed.

End IndexedUpdate.

(** A selection in strictly ascending order is left as it is by the sort. *)
Lemma sort_insert_last a v :
  (forall b, In b v -> at_ b < at_ a) -> sort_insert a v = v ++ [a].
Proof.
  induction v as [|b v IH]; intros H; simpl; [reflexivity|].
  replace (at_ a <? at_ b) with false.
  - rewrite IH; [reflexivity|]. intros c Hc. apply H. now right.
  - symmetry. apply Z.ltb_ge. specialize (H b (or_introl eq_refl)). lia.
Qed.

Lemma sortActions_sorted v : Sorted_at v -> sortActions v = v.
Proof.
  unfold sortActions. change v with ([] ++ v) at 1 3. generalize (@nil FunscriptAction).
  induction v as [|a v IH]; intros acc Hs; simpl.
  - now rewrite app_nil_r.
  - rewrite sort_insert_last.
    + replace (acc ++ a :: v) with ((acc ++ [a]) ++ v) in * by (now rewrite <- app_assoc).
      now apply IH.
    + apply Sorted_at_app in Hs as (_ & _ & H12).
      intros b Hb. apply H12; [assumption | now left].
Qed.


Lemma length_equalize_step_trunc first_at stepMs v i :
  length (equalize_step_trunc first_at stepMs v i) = length v.
Proof.
  unfold equalize_step_trunc. destruct (nth_error v i); [|reflexivity].
  apply length_assign_at.
Qed.

Lemma fold_equalize_step_None first_at stepMs l :
  fold_left (equalize_step first_at stepMs) l None = None.
Proof. induction l as [|i l IH]; [reflexivity | exact IH]. Qed.


(** One undefined conversion makes the whole loop undefined. *)
Lemma equalize_loop_undefined first_at stepMs l : forall v,
  Forall (fun i => (i < length v)%nat) l ->
  forallb (fun i => match equalized_at first_at stepMs i with
                    | Some _ => true
                    | None => false
                    end) l = false ->
  fold_left (equalize_step first_at stepMs) l (Some v) = None.
Proof.
  induction l as [|i l IH]; intros v Hin Hdef; [discriminate|].
  inversion Hin as [|? ? Hi Hin']; subst.
  cbn [forallb] in Hdef. cbn [fold_left]. unfold equalize_step at 2.
  destruct (nth_error v i) as [a|] eqn:Ea.
  2:{ apply nth_error_None in Ea. lia. }
  destruct (equalized_at first_at stepMs i) as [t|] eqn:Et.
  - cbn [andb] in Hdef. apply IH; [|assumption].
    rewrite length_assign_at. assumption.
  - apply fold_equalize_step_None.
Qed.

Lemma seq_interior_lt n :
  Forall (fun i => (i < n)%nat) (seq 1 (n - 2)).
Proof. apply Forall_forall. intros i Hi. apply in_seq in Hi. lia. Qed.



(** The store after [AddAction] and after a run of [RemoveAction]. *)
Lemma AddAction_In a f x :
  In x (Actions (data (AddAction a f))) <-> x = a \/ In x (Actions (data f)).
Proof.
  unfold AddAction, insert_at. simpl.
  set (it := find_if _ _).
  rewrite <- (firstn_skipn it (Actions (data f))) at 3.
  rewrite !in_app_iff. simpl. intuition congruence.
Qed.

Lemma fold_AddAction_In l : forall f x,
  In x (Actions (data (fold_left (fun g a => AddAction a g) l f))) <->
  In x l \/ In x (Actions (data f)).
Proof.
  induction l as [|a l IH]; intros f x; simpl; [tauto|].
  rewrite IH, AddAction_In. intuition congruence.
Qed.

Lemma RemoveAction_In a c f :
  NoDup (Actions (data f)) ->
  NoDup (Actions (data (RemoveAction a c f))) /\
  forall x, In x (Actions (data (RemoveAction a c f))) <->
            In x (Actions (data f)) /\ x <> a.
Proof.
  intros Hnd. unfold RemoveAction.
  destruct (find_action_split a (Actions (data f)))
    as [[E Hn]|(v1 & v2 & Hv & E & Hn1)]; rewrite E.
  - rewrite Nat.ltb_irrefl. split; [assumption|].
    intros x. split; [|tauto]. intros Hx. split; [assumption | congruence].
  - rewrite Hv in Hnd |- *.
    replace (length v1 <? length (v1 ++ a :: v2))%nat with true.
    2:{ symmetry. apply Nat.ltb_lt. rewrite length_app. simpl. lia. }
    rewrite erase_at_app.
    assert (EA : Actions (data (if c
                   then checkForInvalidatedActions
                          (NotifyActionsChanged true (set_Actions (v1 ++ v2) f))
                   else NotifyActionsChanged true (set_Actions (v1 ++ v2) f))) =
                 v1 ++ v2).
    { destruct c; [rewrite Actions_checkForInvalidatedActions|]; reflexivity. }
    rewrite EA.
    pose proof (NoDup_remove_1 _ _ _ Hnd) as Hnd'.
    pose proof (NoDup_remove_2 _ _ _ Hnd) as Hn.
    split; [assumption|].
    intros x. rewrite !in_app_iff. simpl. split.
    + intros Hx. split; [tauto|]. intros ->. apply Hn, in_or_app. tauto.
    + intros [[Hx|[<-|Hx]] Hne]; tauto.
Qed.

Lemma fold_RemoveAction_In l : forall f,
  NoDup (Actions (data f)) ->
  let g := fold_left (fun g a => RemoveAction a false g) l f in
  NoDup (Actions (data g)) /\
  forall x, In x (Actions (data g)) <-> In x (Actions (data f)) /\ ~ In x l.
Proof.
  induction l as [|a l IH]; intros f Hnd; simpl.
  - split; [assumption|]. intros x. tauto.
  - destruct (RemoveAction_In a false f Hnd) as [Hnd' Hin].
    destruct (IH _ Hnd') as [Hnd'' Hin'].
    split; [assumption|].
    intros x. rewrite Hin', Hin. intuition congruence.
Qed.

Lemma Actions_RemoveSelectedActions f :
  Actions (data (RemoveSelectedActions f)) =
  Actions (data (fold_left (fun g a => RemoveAction a false g)
                           (selection (data f)) f)).
Proof.
  unfold RemoveSelectedActions, RemoveActions. simpl.
  now rewrite Actions_checkForInvalidatedActions.
Qed.

Lemma sortSelection_sorted f :
  Sorted_at (selection (data f)) -> sortSelection f = f.
Proof.
  intros Hs. unfold sortSelection, set_selection.
  rewrite (sortActions_sorted _ Hs). now destruct f as [[? ?] ? ? ? ?].
Qed.

(** The step of the code on a well-formed selection is
    [equalize_stepMs]. *)
Lemma equalize_stepMs_code first last sel :
  hd_error sel = Some first -> back sel = Some last ->
  0 <= at_ first <= Int32.max_signed -> 0 <= at_ last <= Int32.max_signed ->
  (1 <= length sel)%nat ->
  Float32.div (Float32.of_int (Int32.sub (at_ last) (at_ first)))
              (Float32.of_int (Z.of_nat (length sel - 1))) =
  equalize_stepMs sel.
Proof.
  intros Hhd Hback Hf Hl Hlen.
  destruct sel as [|x sel']; [discriminate|]. injection Hhd as ->.
  unfold equalize_stepMs. rewrite Hback.
  unfold Int32.sub. rewrite wrap_small by (int32_unfold; lia).
  replace (Z.of_nat (length (first :: sel') - 1))
    with (Z.of_nat (length (first :: sel')) - 1) by (simpl length; lia).
  reflexivity.
Qed.


(** Where a conversion is undefined, so is [EqualizeSelection]. *)
Lemma EqualizeSelection_undefined f :
  (3 <= length (selection (data f)))%nat ->
  well_formed (selection (data f)) = true ->
  equalize_defined (selection (data f)) = false ->
  EqualizeSelection f = None.
Proof.
  intros Hlen Hwf Hdef. apply well_formed_spec in Hwf as [Hvalid Hs].
  unfold EqualizeSelection.
  replace (length (selection (data f)) <? 3)%nat with false
    by (symmetry; apply Nat.ltb_ge; lia).
  rewrite (sortSelection_sorted f Hs).
  destruct (selection (data f)) as [|first sel'] eqn:Esel; [simpl in Hlen; lia|].
  destruct (back (first :: sel')) as [last|] eqn:Hb.
  - assert (Hf : 0 <= at_ first <= Int32.max_signed)
      by (apply Hvalid; now left).
    assert (Hl : 0 <= at_ last <= Int32.max_signed)
      by (apply Hvalid; now apply back_In).
    assert (H1 : (1 <= length (first :: sel'))%nat) by (simpl; lia).
    cbv zeta.
    rewrite equalize_loop_undefined; [reflexivity | apply seq_interior_lt |].
    rewrite (equalize_stepMs_code first last (first :: sel'));
      try reflexivity; try assumption.
  - rewrite back_nth_error in Hb. apply nth_error_None in Hb. simpl in Hb. lia.
Qed.





(** * Further properties of the code *)

(** ** Neighbour queries *)

Lemma upper_bound_entries k v : forall i key j,
  ActionMap.upper_bound k (ActionMap.entries i v) = Some (key, j) ->
  exists v1 b v2,
    v = v1 ++ b :: v2 /\ j = (i + length v1)%nat /\ key = at_ b /\ k < at_ b /\
    Forall (fun a => at_ a <= k) v1.
Proof.
  unfold ActionMap.upper_bound.
  induction v as [|a v IH]; intros i key j; simpl; [discriminate|].
  destruct (k <? at_ a) eqn:Hk.
  - intros [= <- <-]. exists [], a, v. simpl. apply Z.ltb_lt in Hk.
    repeat split; auto.
  - intros H. apply IH in H as (v1 & b & v2 & -> & -> & -> & Hb & Hall).
    exists (a :: v1), b, v2. simpl. apply Z.ltb_ge in Hk.
    repeat split; auto.
Qed.

Lemma upper_bound_entries_none k v : forall i,
  ActionMap.upper_bound k (ActionMap.entries i v) = None ->
  Forall (fun a => at_ a <= k) v.
Proof.
  unfold ActionMap.upper_bound.
  induction v as [|a v IH]; intros i; simpl; [constructor|].
  destruct (k <? at_ a) eqn:Hk; [discriminate|].
  intros H. apply Z.ltb_ge in Hk. constructor; [assumption | eauto].
Qed.

Lemma getNextActionAhead_stale f t :
  SplineNeedsUpdate f = true ->
  next_ahead (Actions (data f)) t (getNextActionAhead f t).
Proof.
  intros Hflag. unfold getNextActionAhead. rewrite Hflag. simpl.
  destruct (find_if_split (fun action => t <? at_ action) (Actions (data f)))
    as (v1 & v2 & Hv & Hlen & H1 & H2).
  rewrite <- Hlen, Hv. rewrite Forall_forall in H1.
  assert (Hle : forall b, In b v1 -> at_ b <= t).
  { intros b Hb. specialize (H1 b Hb). now apply Z.ltb_ge in H1. }
  destruct v2 as [|a v2].
  - rewrite app_nil_r, Nat.ltb_irrefl. exact Hle.
  - replace (length v1 <? length (v1 ++ a :: v2))%nat with true.
    2:{ symmetry. apply Nat.ltb_lt. rewrite length_app. simpl. lia. }
    apply Z.ltb_lt in H2. exists v1, a, v2. auto.
Qed.

Lemma getNextActionAhead_indexed f t :
  Sorted_at (Actions (data f)) ->
  SplineNeedsUpdate f = false ->
  ScriptSpline f = ActionMap.Update (Actions (data f)) ->
  next_ahead (Actions (data f)) t (getNextActionAhead f t).
Proof.
  intros Hs Hflag Hmap. unfold getNextActionAhead.
  rewrite Hflag, Hmap, (Update_sorted _ Hs). simpl.
  destruct (ActionMap.upper_bound t (ActionMap.entries 0 (Actions (data f))))
    as [[key j]|] eqn:Hub.
  - apply upper_bound_entries in Hub as (v1 & b & v2 & E & -> & -> & Hb & Hall).
    replace (t <? at_ b) with true by (symmetry; apply Z.ltb_lt; lia).
    exists v1, b, v2. rewrite Forall_forall in Hall. auto.
  - apply upper_bound_entries_none in Hub. rewrite Forall_forall in Hub.
    exact Hub.
Qed.

(** The answer of [next_ahead] is unique. *)
Lemma next_ahead_unique v t r1 r2 :
  next_ahead v t r1 -> next_ahead v t r2 -> r1 = r2.
Proof.
  assert (Hsome_none : forall i, next_ahead v t (Some i) ->
                                  next_ahead v t None -> False).
  { intros i (v1 & a & v2 & -> & _ & Ha & _) Hnone.
    assert (Hin : In a (v1 ++ a :: v2)) by (apply in_or_app; right; now left).
    specialize (Hnone a Hin). lia. }
  destruct r1 as [i|], r2 as [j|]; intros H1 H2;
    try reflexivity; try (exfalso; eauto; fail).
  destruct H1 as (v1 & a & v2 & E1 & -> & Ha & H1).
  destruct H2 as (w1 & b & w2 & E2 & -> & Hb & H2).
  f_equal. rewrite E1 in E2. clear E1.
  revert w1 E2 H2. induction v1 as [|x v1 IH]; intros [|y w1] E2 H2; simpl in *.
  - reflexivity.
  - injection E2 as <- _. specialize (H2 a (or_introl eq_refl)). lia.
  - injection E2 as -> _. specialize (H1 b (or_introl eq_refl)). lia.
  - injection E2 as <- E2. f_equal. apply IH; auto.
Qed.

(** X1 -- [getNextActionAhead] returns the first action of the store whose
    timestamp is after the query time, and nothing exactly when there is no
    such action; on a store with strictly increasing timestamps the lookup
    through a valid spline index and the linear search of a stale index
    give the same answer. *)
Theorem getNextActionAhead_first_after (f g : Funscript) (t : Z) :
  strictly_increasing (Actions (data f)) = true ->
  index_ok f ->
  SplineNeedsUpdate g = true ->
  Actions (data g) = Actions (data f) ->
  next_ahead (Actions (data f)) t (getNextActionAhead f t) /\
  getNextActionAhead f t = getNextActionAhead g t.
Proof.
  rewrite strictly_increasing_Sorted_at. intros Hs Hidx Hg Hsame.
  assert (Hf : next_ahead (Actions (data f)) t (getNextActionAhead f t)).
  { destruct (SplineNeedsUpdate f) eqn:Hflag.
    - now apply getNextActionAhead_stale.
    - destruct Hidx as [Hidx|Hidx]; [congruence|].
      now apply getNextActionAhead_indexed. }
  split; [exact Hf|].
  apply (next_ahead_unique (Actions (data f)) t); [exact Hf|].
  rewrite <- Hsame. now apply getNextActionAhead_stale.
Qed.

Lemma getNextActionAhead_first_after_witness :
  let v := [mkAction 0 0; mkAction 400 80; mkAction 1000 100] in
  let f := mkFunscript (mkData v []) (ActionMap.Update v) false false false in
  let g := mkFunscript (mkData v []) [] true false false in
  strictly_increasing (Actions (data f)) = true /\
  getNextActionAhead f 400 = Some 2%nat /\
  getNextActionAhead f 400 = getNextActionAhead g 400.
Proof.
  intros v f g. split; [reflexivity|]. split; [reflexivity|].
  apply (getNextActionAhead_first_after f g 400);
    [reflexivity | right; reflexivity | reflexivity | reflexivity].
Defined.

(** X2 -- with a stale index [getPreviousActionBehind] returns the last
    action of the store whose timestamp is before the query time (every
    action behind it in the store is at or after the query time), and
    nothing exactly when no action is before the query time. *)
Theorem getPreviousActionBehind_stale (f : Funscript) (t : Z) :
  SplineNeedsUpdate f = true ->
  match getPreviousActionBehind f t with
  | Some i =>
      exists v1 a v2,
        Actions (data f) = v1 ++ a :: v2 /\ i = length v1 /\ at_ a < t /\
        forall b, In b v2 -> t <= at_ b
  | None => forall b, In b (Actions (data f)) -> t <= at_ b
  end.
Proof.
  intros Hflag. unfold getPreviousActionBehind. rewrite Hflag. simpl.
  destruct (find_if_split (fun action => at_ action <? t)
                          (rev (Actions (data f))))
    as (r1 & r2 & Hv & Hlen & H1 & H2).
  rewrite <- Hlen.
  assert (E : Actions (data f) = rev r2 ++ rev r1).
  { rewrite <- (rev_involutive (Actions (data f))), Hv. apply rev_app_distr. }
  rewrite Forall_forall in H1.
  assert (Hge : forall b, In b (rev r1) -> t <= at_ b).
  { intros b Hb. apply in_rev in Hb. specialize (H1 b Hb).
    now apply Z.ltb_ge in H1. }
  rewrite E. rewrite length_app, !length_rev.
  destruct r2 as [|a r2].
  - simpl. rewrite Nat.ltb_irrefl. exact Hge.
  - replace (length r1 <? length (a :: r2) + length r1)%nat with true.
    2:{ symmetry. apply Nat.ltb_lt. simpl. lia. }
    apply Z.ltb_lt in H2. exists (rev r2), a, (rev r1).
    simpl. rewrite <- app_assoc. simpl. rewrite length_rev.
    repeat split; auto. lia.
Qed.

Lemma getPreviousActionBehind_stale_witness :
  let v := [mkAction 0 0; mkAction 400 80; mkAction 1000 100] in
  let f := mkFunscript (mkData v []) [] true false false in
  SplineNeedsUpdate f = true /\
  getPreviousActionBehind f 400 = Some 0%nat /\
  exists v1 a v2,
    Actions (data f) = v1 ++ a :: v2 /\ 0%nat = length v1 /\ at_ a < 400 /\
    forall b, In b v2 -> 400 <= at_ b.
Proof.
  intros v f. split; [reflexivity|]. split; [reflexivity|].
  exact (getPreviousActionBehind_stale f 400 eq_refl).
Defined.

(** X3 -- with a valid index on a store with strictly increasing
    timestamps [getPreviousActionBehind] answers from [upper_bound]: it
    returns the action just before the first action after the query time,
    that is the last action at or before the query time (an action exactly
    at the query time is returned), and it returns nothing when no action is
    after the query time or the first action already is, whatever lies
    before. *)
Theorem getPreviousActionBehind_indexed (f : Funscript) (t : Z) :
  strictly_increasing (Actions (data f)) = true ->
  SplineNeedsUpdate f = false ->
  ScriptSpline f = ActionMap.Update (Actions (data f)) ->
  match getPreviousActionBehind f t with
  | Some i =>
      exists v1 a b v2,
        Actions (data f) = v1 ++ a :: b :: v2 /\ i = length v1 /\
        at_ a <= t < at_ b /\ forall x, In x v1 -> at_ x < at_ a
  | None =>
      (forall b, In b (Actions (data f)) -> at_ b <= t) \/
      (forall b, In b (Actions (data f)) -> t < at_ b)
  end.
Proof.
  rewrite strictly_increasing_Sorted_at. intros Hs Hflag Hmap.
  unfold getPreviousActionBehind.
  rewrite Hflag, Hmap, (Update_sorted _ Hs). simpl.
  destruct (ActionMap.upper_bound t (ActionMap.entries 0 (Actions (data f))))
    as [[key j]|] eqn:Hub.
  - apply upper_bound_entries in Hub as (v1 & b & v2 & E & -> & -> & Hb & Hall).
    simpl. rewrite E in Hs |- *.
    destruct (snoc_case v1) as [->|(v1' & a & ->)].
    + simpl. right. apply StronglySorted_inv in Hs as [_ Hlater].
      rewrite Forall_forall in Hlater. intros x [<-|Hx]; [assumption|].
      specialize (Hlater x Hx). unfold before in Hlater. lia.
    + rewrite length_app. simpl length.
      replace (0 <? length v1' + 1)%nat with true
        by (symmetry; apply Nat.ltb_lt; lia).
      replace (pred (length v1' + 1)) with (length v1') by lia.
      exists v1', a, b, v2. rewrite <- app_assoc. simpl.
      apply Forall_app in Hall as [_ Ha]. apply Forall_cons_iff in Ha as [Ha _].
      repeat split; auto.
      intros x Hx. rewrite <- app_assoc in Hs.
      apply Sorted_at_app in Hs as (_ & _ & H12). apply H12; [assumption | now left].
  - left. apply upper_bound_entries_none in Hub. rewrite Forall_forall in Hub.
    exact Hub.
Qed.

Lemma getPreviousActionBehind_indexed_witness :
  let v := [mkAction 0 0; mkAction 400 80; mkAction 1000 100] in
  let f := mkFunscript (mkData v []) (ActionMap.Update v) false false false in
  strictly_increasing (Actions (data f)) = true /\
  getPreviousActionBehind f 400 = Some 1%nat /\
  exists v1 a b v2,
    Actions (data f) = v1 ++ a :: b :: v2 /\ 1%nat = length v1 /\
    at_ a <= 400 < at_ b /\ forall x, In x v1 -> at_ x < at_ a.
Proof.
  intros v f. split; [reflexivity|]. split; [reflexivity|].
  exact (getPreviousActionBehind_indexed f 400 eq_refl eq_refl eq_refl).
Defined.

(** ** Lookup of an action *)

Lemma lookup_entries k v : forall i,
  match ActionMap.lookup k (ActionMap.entries i v) with
  | Some (_, j) =>
      exists v1 b v2,
        v = v1 ++ b :: v2 /\ j = (i + length v1)%nat /\ at_ b = k /\
        forall x, In x v1 -> at_ x <> k
  | None => forall x, In x v -> at_ x <> k
  end.
Proof.
  unfold ActionMap.lookup.
  induction v as [|a v IH]; intros i; simpl; [intros x []|].
  destruct (at_ a =? k) eqn:Hk.
  - apply Z.eqb_eq in Hk. exists [], a, v. simpl.
    repeat split; auto.
  - apply Z.eqb_neq in Hk. specialize (IH (S i)).
    destruct (find _ (ActionMap.entries (S i) v)) as [[key j]|].
    + destruct IH as (v1 & b & v2 & -> & -> & Hb & Hno).
      exists (a :: v1), b, v2. simpl. repeat split; auto.
      intros x [<-|Hx]; auto.
    + intros x [<-|Hx]; auto.
Qed.

(** X4 -- [getAction] looks an action up in two different ways.  With a
    stale index it returns the first slot holding a value-equal action
    (timestamp and position), and nothing when the store has none.  With a
    valid index on a store with strictly increasing timestamps it returns
    the slot of the action with the same timestamp, whatever its position,
    and nothing exactly when no action has that timestamp. *)
Theorem getAction_lookup (f : Funscript) (a : FunscriptAction) :
  (SplineNeedsUpdate f = true ->
   match getAction f a with
   | Some i =>
       exists v1 v2,
         Actions (data f) = v1 ++ a :: v2 /\ i = length v1 /\ ~ In a v1
   | None => ~ In a (Actions (data f))
   end) /\
  (strictly_increasing (Actions (data f)) = true ->
   SplineNeedsUpdate f = false ->
   ScriptSpline f = ActionMap.Update (Actions (data f)) ->
   match getAction f a with
   | Some i =>
       exists v1 b v2,
         Actions (data f) = v1 ++ b :: v2 /\ i = length v1 /\ at_ b = at_ a
   | None => forall b, In b (Actions (data f)) -> at_ b <> at_ a
   end).
Proof.
  split.
  - intros Hflag. unfold getAction. rewrite Hflag. simpl.
    destruct (find_action_split a (Actions (data f)))
      as [[E Hn]|(v1 & v2 & Hv & E & Hn1)]; rewrite E.
    + now rewrite Nat.ltb_irrefl.
    + replace (length v1 <? length (Actions (data f)))%nat with true.
      * exists v1, v2. auto.
      * symmetry. apply Nat.ltb_lt. rewrite Hv, length_app. simpl. lia.
  - rewrite strictly_increasing_Sorted_at. intros Hs Hflag Hmap.
    unfold getAction. rewrite Hflag, Hmap, (Update_sorted _ Hs). simpl.
    pose proof (lookup_entries (at_ a) (Actions (data f)) 0) as H.
    destruct (ActionMap.lookup (at_ a) (ActionMap.entries 0 (Actions (data f))))
      as [[key j]|].
    + destruct H as (v1 & b & v2 & E & -> & Hb & _).
      exists v1, b, v2. auto.
    + exact H.
Qed.

(** ** The nearest action, with and without the index *)

Lemma Sorted_at_nth_error_inj v i j a b :
  Sorted_at v ->
  nth_error v i = Some a -> nth_error v j = Some b -> at_ a = at_ b -> i = j.
Proof.
  intros Hs Hi Hj Hab. apply Sorted_at_NoDup in Hs.
  rewrite NoDup_nth_error in Hs. apply Hs.
  - rewrite length_map. apply nth_error_Some. congruence.
  - rewrite !nth_error_map, Hi, Hj. simpl. now rewrite Hab.
Qed.

Lemma nearest_in_window_unique actions t maxErr r1 r2 :
  Sorted_at actions ->
  nearest_in_window actions t maxErr r1 ->
  nearest_in_window actions t maxErr r2 -> r1 = r2.
Proof.
  intros Hs H1 H2. destruct r1 as [i|], r2 as [j|]; simpl in *.
  - destruct H1 as (a & Hi & Hwa & Ha). destruct H2 as (b & Hj & Hwb & Hb).
    destruct (Ha b (nth_error_In _ _ Hj) Hwb) as [Hab Hab'].
    destruct (Hb a (nth_error_In _ _ Hi) Hwa) as [Hba Hba'].
    f_equal. apply (Sorted_at_nth_error_inj actions i j a b Hs Hi Hj).
    assert (distance t a = distance t b) by lia.
    assert (at_ b <= at_ a) by (apply Hab'; lia).
    assert (at_ a <= at_ b) by (apply Hba'; lia). lia.
  - destruct H1 as (a & Hi & Hwa & _).
    now destruct (H2 a (nth_error_In _ _ Hi)).
  - destruct H2 as (b & Hj & Hwb & _).
    now destruct (H1 b (nth_error_In _ _ Hj)).
  - reflexivity.
Qed.

(** X5 -- the spline index is an optimisation for [getActionAtTime] too:
    on well-formed actions, with the query time and the tolerance between 0
    and [INT32_MAX], the scan that starts at the [lower_bound] slot of a
    valid index returns the same action as the scan from slot 0 of a stale
    index. *)
Theorem getActionAtTime_index_agnostic
        (f g : Funscript) (actions : list FunscriptAction) (t maxErr : Z) :
  well_formed actions = true ->
  0 <= t <= Int32.max_signed ->
  0 <= maxErr <= Int32.max_signed ->
  SplineNeedsUpdate f = false ->
  ScriptSpline f = ActionMap.Update actions ->
  SplineNeedsUpdate g = true ->
  getActionAtTime f actions t maxErr = getActionAtTime g actions t maxErr.
Proof.
  intros Hwf Ht Herr Hflag Hmap Hstale.
  apply well_formed_spec in Hwf as [Hvalid Hs].
  assert (Hv : forall a, In a actions -> 0 <= at_ a <= Int32.max_signed)
    by (intros a Ha; now apply Hvalid).
  apply (nearest_in_window_unique actions t maxErr); [assumption | |].
  - apply getActionAtTime_nearest; auto.
  - apply getActionAtTime_nearest; auto.
Qed.

Lemma getActionAtTime_index_agnostic_witness :
  let actions := [mkAction 0 0; mkAction 20 0; mkAction 200 0] in
  let f := mkFunscript (mkData actions []) (ActionMap.Update actions)
                       false false false in
  let g := mkFunscript (mkData actions []) [] true false false in
  well_formed actions = true /\
  getActionAtTime f actions 190 30 = getActionAtTime g actions 190 30.
Proof.
  intros actions f g. split; [reflexivity|].
  apply (getActionAtTime_index_agnostic f g actions 190 30);
    try reflexivity; int32_unfold; lia.
Defined.

(** ** Mutations of the store *)

(** X6 -- [AddActionSafe] is idempotent on every store, sorted or not: after
    one call a second call with the same timestamp (any position) finds the
    timestamp in the slot before its insertion point and changes nothing. *)
Theorem AddActionSafe_idempotent (f : Funscript) (a a' : FunscriptAction) :
  at_ a' = at_ a ->
  AddActionSafe a' (AddActionSafe a f) = AddActionSafe a f.
Proof.
  intros Hat. unfold AddActionSafe. cbv zeta. rewrite Hat.
  destruct (Nat.eqb _ (length (Actions (data f)))) eqn:Hsafe.
  - (* the first call inserted *)
    cbn [NotifyActionsChanged set_Actions data Actions].
    destruct (find_if_split (fun action => at_ a <? at_ action) (Actions (data f)))
      as (v1 & v2 & Hv & Hlen & H1 & H2).
    rewrite <- Hlen. rewrite Hv, insert_at_app.
    assert (Hit : find_if (fun action => at_ a <? at_ action) (v1 ++ a :: v2) =
                  S (length v1)).
    { clear - H1 H2. induction H1 as [|x v1 Hx _ IH]; simpl.
      - rewrite Z.ltb_irrefl. destruct v2 as [|y v2]; simpl; [reflexivity|].
        now rewrite H2.
      - now rewrite Hx, IH. }
    rewrite Hit. cbn [Nat.ltb Nat.leb pred]. rewrite skipn_length_app.
    cbn [find_if]. rewrite Z.eqb_refl.
    replace (length v1 + 0 =? length (v1 ++ a :: v2))%nat with false.
    + reflexivity.
    + symmetry. apply Nat.eqb_neq. rewrite length_app. simpl. lia.
  - (* the first call was rejected *)
    now rewrite Hsafe.
Qed.

Lemma AddActionSafe_idempotent_witness :
  let f := mkFunscript (mkData [mkAction 500 1; mkAction 100 2] [])
                       [] true false false in
  at_ (mkAction 300 9) = at_ (mkAction 300 4) /\
  AddActionSafe (mkAction 300 9) (AddActionSafe (mkAction 300 4) f) =
  AddActionSafe (mkAction 300 4) f.
Proof.
  intros f. split; [reflexivity|].
  apply (AddActionSafe_idempotent f (mkAction 300 4) (mkAction 300 9)).
  reflexivity.
Defined.

(** X7 -- [RemoveAction] removes by value.  When the store holds no
    value-equal action the whole state is left as it is (no flag is
    raised); otherwise exactly the first value-equal action is erased and
    the others keep their order. *)
Theorem RemoveAction_by_value (a : FunscriptAction) (c : bool) (f : Funscript) :
  (~ In a (Actions (data f)) -> RemoveAction a c f = f) /\
  (In a (Actions (data f)) ->
   exists v1 v2,
     Actions (data f) = v1 ++ a :: v2 /\ ~ In a v1 /\
     Actions (data (RemoveAction a c f)) = v1 ++ v2 /\
     funscriptChanged (RemoveAction a c f) = true).
Proof.
  unfold RemoveAction.
  destruct (find_action_split a (Actions (data f)))
    as [[E Hn]|(v1 & v2 & Hv & E & Hn1)]; rewrite E.
  - rewrite Nat.ltb_irrefl. split; [reflexivity | contradiction].
  - replace (length v1 <? length (Actions (data f)))%nat with true.
    2:{ symmetry. apply Nat.ltb_lt. rewrite Hv, length_app. simpl. lia. }
    split.
    + intros Hn. destruct Hn. rewrite Hv. apply in_or_app. right. now left.
    + intros _. exists v1, v2.
      assert (EA : erase_at (length v1) (Actions (data f)) = v1 ++ v2)
        by (rewrite Hv; apply erase_at_app).
      rewrite EA. repeat split; try assumption.
      * destruct c; [rewrite Actions_checkForInvalidatedActions|]; reflexivity.
      * destruct c; [|reflexivity]. unfold checkForInvalidatedActions.
        destruct (remove_if _ _) as [w it]. now destruct (it <? length w)%nat.
Qed.

Lemma fold_RemoveAction_sorted l : forall f,
  Sorted_at (Actions (data f)) ->
  Sorted_at (Actions (data (fold_left (fun g a => RemoveAction a false g) l f))).
Proof.
  induction l as [|a l IH]; intros f Hs; simpl; [assumption|].
  apply IH. now apply RemoveAction_sorted.
Qed.

Lemma Actions_RemoveActions l f :
  Actions (data (RemoveActions l f)) =
  Actions (data (fold_left (fun g a => RemoveAction a false g) l f)).
Proof.
  unfold RemoveActions. now rewrite Actions_checkForInvalidatedActions.
Qed.

(** X8 -- on a store with strictly increasing timestamps [RemoveActions]
    leaves exactly the actions that are not value-equal to a listed one,
    and the store stays strictly increasing. *)
Theorem RemoveActions_store (l : list FunscriptAction) (f : Funscript) :
  strictly_increasing (Actions (data f)) = true ->
  strictly_increasing (Actions (data (RemoveActions l f))) = true /\
  forall x, In x (Actions (data (RemoveActions l f))) <->
            In x (Actions (data f)) /\ ~ In x l.
Proof.
  rewrite !strictly_increasing_Sorted_at. intros Hs.
  rewrite Actions_RemoveActions. split.
  - now apply fold_RemoveAction_sorted.
  - apply fold_RemoveAction_In. apply Sorted_at_NoDup in Hs.
    now apply NoDup_map_inv in Hs.
Qed.

Lemma RemoveActions_store_witness :
  let v := [mkAction 0 0; mkAction 100 50; mkAction 200 100] in
  let f := mkFunscript (mkData v []) [] true false false in
  strictly_increasing (Actions (data f)) = true /\
  strictly_increasing
    (Actions (data (RemoveActions [mkAction 100 50; mkAction 7 7] f))) = true.
Proof.
  intros v f. split; [reflexivity|].
  apply (RemoveActions_store [mkAction 100 50; mkAction 7 7] f). reflexivity.
Defined.

Lemma Sorted_at_filter p v : Sorted_at v -> Sorted_at (filter p v).
Proof.
  unfold Sorted_at. induction 1 as [|a v Hs IH Hall]; simpl; [constructor|].
  destruct (p a); [|assumption].
  constructor; [assumption|].
  apply Forall_forall. intros x Hx. apply filter_In in Hx as [Hx _].
  rewrite Forall_forall in Hall. now apply Hall.
Qed.

(** X9 -- [RemoveActionsInInterval] erases exactly the actions whose
    timestamp lies in the inclusive interval: the store becomes the actions
    outside the interval, in their order, so a store with strictly
    increasing timestamps stays strictly increasing, and an interval with
    [toMs < fromMs] removes nothing. *)
Theorem RemoveActionsInInterval_store (fromMs toMs : Z) (f : Funscript) :
  Actions (data (RemoveActionsInInterval fromMs toMs f)) =
    filter (fun a => negb ((fromMs <=? at_ a) && (at_ a <=? toMs)))
           (Actions (data f)) /\
  (strictly_increasing (Actions (data f)) = true ->
   strictly_increasing
     (Actions (data (RemoveActionsInInterval fromMs toMs f))) = true) /\
  (toMs < fromMs ->
   Actions (data (RemoveActionsInInterval fromMs toMs f)) = Actions (data f)).
Proof.
  rewrite Actions_RemoveActionsInInterval. split; [reflexivity|]. split.
  - rewrite !strictly_increasing_Sorted_at. apply Sorted_at_filter.
  - intros Hempty. induction (Actions (data f)) as [|a v IH]; simpl; [reflexivity|].
    replace ((fromMs <=? at_ a) && (at_ a <=? toMs)) with false.
    + simpl. now rewrite IH.
    + symmetry. apply andb_false_iff.
      destruct (Z.leb_spec fromMs (at_ a)); [right; apply Z.leb_gt; lia | now left].
Qed.

(** ** Pruning the selection *)

Lemma In_skipn {A : Type} (x : A) n (v : list A) : In x (skipn n v) -> In x v.
Proof.
  intros H. rewrite <- (firstn_skipn n v). apply in_or_app. now right.
Qed.

(** X10 -- [checkForInvalidatedActions] only ever drops entries: the store
    is untouched, every entry of the new selection was selected before, the
    selection does not grow, and every selected action that [getAction]
    finds stays selected. *)
Theorem checkForInvalidatedActions_only_drops (f : Funscript) :
  let g := checkForInvalidatedActions f in
  Actions (data g) = Actions (data f) /\
  (forall s, In s (selection (data g)) -> In s (selection (data f))) /\
  (length (selection (data g)) <= length (selection (data f)))%nat /\
  (forall s, In s (selection (data f)) -> getAction f s <> None ->
             In s (selection (data g))).
Proof.
  intros g. subst g. rewrite Actions_checkForInvalidatedActions.
  rewrite selection_checkForInvalidatedActions.
  set (found := fun selected => match getAction f selected with
                                | None => false
                                | Some _ => true
                                end).
  set (kept := filter found (selection (data f))).
  pose proof (filter_length_le found (selection (data f))) as Hle. fold kept in Hle.
  split; [reflexivity|]. split; [|split].
  - intros s Hs. apply in_app_or in Hs as [Hs|Hs].
    + now apply filter_In in Hs.
    + now apply In_skipn in Hs.
  - rewrite length_app, length_skipn. lia.
  - intros s Hs Hfound. apply in_or_app. left. apply filter_In.
    split; [assumption|]. unfold found. now destruct (getAction f s).
Qed.

Lemma filter_partition_length {A : Type} (p : A -> bool) (v : list A) :
  length v = (length (filter p v) + length (filter (fun x => negb (p x)) v))%nat.
Proof.
  induction v as [|x v IH]; simpl; [reflexivity|].
  destruct (p x); simpl; lia.
Qed.

Lemma NoDup_all_equal_length {A : Type} (v : list A) :
  NoDup v -> (forall x y, In x v -> In y v -> x = y) -> (length v <= 1)%nat.
Proof.
  intros Hnd Heq. destruct v as [|x [|y v]]; simpl; try lia.
  exfalso. apply NoDup_cons_iff in Hnd as [Hx _]. apply Hx.
  rewrite (Heq x y); simpl; auto.
Qed.

(** X11 -- with a stale index, when the selection has no repeated entry and
    at most one selected action has no value-equal action in the store,
    [checkForInvalidatedActions] restores soundness: afterwards every
    selected action is in the store. *)
Theorem checkForInvalidatedActions_restores_soundness (f : Funscript) :
  SplineNeedsUpdate f = true ->
  NoDup (selection (data f)) ->
  (forall s1 s2,
     In s1 (selection (data f)) -> In s2 (selection (data f)) ->
     ~ In s1 (Actions (data f)) -> ~ In s2 (Actions (data f)) -> s1 = s2) ->
  forall s, In s (selection (data (checkForInvalidatedActions f))) ->
            In s (Actions (data (checkForInvalidatedActions f))).
Proof.
  intros Hflag Hnd Hone. apply checkForInvalidatedActions_sound_one; [assumption|].
  set (found := fun s => match getAction f s with
                         | None => false
                         | Some _ => true
                         end).
  rewrite (filter_partition_length found (selection (data f))) at 1.
  assert (Hlost : (length (filter (fun x => negb (found x))
                                  (selection (data f))) <= 1)%nat).
  { apply NoDup_all_equal_length; [now apply NoDup_filter|].
    assert (Hout : forall x,
               In x (filter (fun x => negb (found x)) (selection (data f))) ->
               In x (selection (data f)) /\ ~ In x (Actions (data f))).
    { intros x Hx. apply filter_In in Hx as [Hx Hnf]. split; [assumption|].
      intros Hin. apply (getAction_stale f x Hflag) in Hin as [i Hi].
      unfold found in Hnf. rewrite Hi in Hnf. discriminate. }
    intros x y Hx Hy. apply Hout in Hx as [Hx Hx'], Hy as [Hy Hy']. auto. }
  lia.
Qed.

Lemma checkForInvalidatedActions_restores_soundness_witness :
  let f := mkFunscript
             (mkData [mkAction 0 0; mkAction 200 100]
                     [mkAction 0 0; mkAction 100 50; mkAction 200 100])
             [] true false false in
  SplineNeedsUpdate f = true /\
  forall s, In s (selection (data (checkForInvalidatedActions f))) ->
            In s (Actions (data (checkForInvalidatedActions f))).
Proof.
  intros f. split; [reflexivity|].
  apply (checkForInvalidatedActions_restores_soundness f).
  - reflexivity.
  - simpl. repeat constructor; simpl; intuition discriminate.
  - simpl. intros s1 s2 H1 H2 N1 N2.
    destruct H1 as [<-|[<-|[<-|[]]]]; destruct H2 as [<-|[<-|[<-|[]]]];
      try reflexivity; exfalso;
      first [ solve [apply N1; simpl; auto] | solve [apply N2; simpl; auto] ].
Defined.

(** ** Editing in place and bulk insertion *)

Lemma getAction_stale_split f a :
  SplineNeedsUpdate f = true ->
  match getAction f a with
  | Some i =>
      exists v1 v2,
        Actions (data f) = v1 ++ a :: v2 /\ i = length v1 /\ ~ In a v1
  | None => ~ In a (Actions (data f))
  end.
Proof.
  intros Hflag. unfold getAction. rewrite Hflag. simpl.
  destruct (find_action_split a (Actions (data f)))
    as [[E Hn]|(v1 & v2 & Hv & E & Hn1)]; rewrite E.
  - now rewrite Nat.ltb_irrefl.
  - replace (length v1 <? length (Actions (data f)))%nat with true.
    + exists v1, v2. auto.
    + symmetry. apply Nat.ltb_lt. rewrite Hv, length_app. simpl. lia.
Qed.

(** X12 -- with a stale index [EditAction] reports failure and leaves the
    whole state alone when the store has no action value-equal to
    [oldAction]; otherwise it reports success and overwrites the first
    value-equal action in its slot: the other actions, the length and the
    order of the store are untouched, the store is not re-sorted. *)
Theorem EditAction_in_place (oldAction newAction : FunscriptAction)
        (f : Funscript) :
  SplineNeedsUpdate f = true ->
  (~ In oldAction (Actions (data f)) ->
   EditAction oldAction newAction f = (false, f)) /\
  (In oldAction (Actions (data f)) ->
   exists v1 v2,
     Actions (data f) = v1 ++ oldAction :: v2 /\ ~ In oldAction v1 /\
     fst (EditAction oldAction newAction f) = true /\
     Actions (data (snd (EditAction oldAction newAction f))) =
       v1 ++ newAction :: v2).
Proof.
  intros Hflag.
  pose proof (getAction_stale_split f oldAction Hflag) as Hstale.
  unfold EditAction.
  destruct (getAction f oldAction) as [i|].
  - destruct Hstale as (v1 & v2 & Hv & -> & Hn1). split.
    + intros Hn. destruct Hn. rewrite Hv. apply in_or_app. right. now left.
    + intros _. exists v1, v2. repeat split; try assumption.
      simpl. rewrite Actions_checkForInvalidatedActions. simpl.
      rewrite Hv. apply assign_at_app.
  - split; [reflexivity | contradiction].
Qed.

Lemma EditAction_in_place_witness :
  let f := mkFunscript (mkData [mkAction 0 0; mkAction 100 50] [])
                       [] true false false in
  SplineNeedsUpdate f = true /\
  EditAction (mkAction 7 7) (mkAction 9 9) f = (false, f).
Proof.
  intros f. split; [reflexivity|].
  destruct (EditAction_in_place (mkAction 7 7) (mkAction 9 9) f eq_refl)
    as [Habsent _].
  apply Habsent. simpl. intuition discriminate.
Defined.

Lemma existsb_action_In a v :
  existsb (fun x => action_eqb x a) v = true <-> In a v.
Proof.
  rewrite existsb_exists. split.
  - intros (x & Hx & Heq). apply action_eqb_eq in Heq. now subst.
  - intros Ha. exists a. split; [assumption | now apply action_eqb_eq].
Qed.

Lemma AddActionRange_loop v range : forall w,
  fold_left (fun w action =>
               if existsb (fun x => action_eqb x action) v then w
               else w ++ [action]) range w =
  w ++ filter (fun action => negb (existsb (fun x => action_eqb x action) v))
              range.
Proof.
  induction range as [|a range IH]; intros w; simpl.
  - now rewrite app_nil_r.
  - rewrite IH. destruct (existsb _ v); simpl; [reflexivity|].
    now rewrite <- app_assoc.
Qed.

(** X13 -- [AddActionRange] with [checkDuplicates] appends the actions of
    the range that are not value-equal to an action already in the store
    and sorts: the store ends in ascending timestamp order, holds exactly
    the old actions and the actions of the range, and when neither the old
    store nor the range repeats an action the new store repeats none.  The
    check compares timestamp and position: an action with a taken timestamp
    and another position is added. *)
Theorem AddActionRange_checked (range : list FunscriptAction) (f : Funscript) :
  let v := Actions (data f) in
  let v' := Actions (data (AddActionRange range true f)) in
  Sorted_le v' /\
  (forall x, In x v' <-> In x v \/ In x range) /\
  (NoDup v -> NoDup range -> NoDup v') /\
  (forall a b, In b v -> at_ a = at_ b -> pos a <> pos b -> In a range ->
               In a v').
Proof.
  intros v v'. subst v'. unfold AddActionRange. fold v. simpl.
  rewrite AddActionRange_loop.
  set (fresh := filter (fun action => negb (existsb (fun x => action_eqb x action) v))
                       range).
  destruct (sortActions_spec (v ++ fresh)) as [Hsorted Hperm].
  assert (Hfresh : forall x, In x fresh <-> In x range /\ ~ In x v).
  { intros x. unfold fresh. rewrite filter_In, negb_true_iff.
    split; intros [Hr Hn]; (split; [assumption|]).
    - intros Hin. apply existsb_action_In in Hin. congruence.
    - destruct (existsb (fun x0 => action_eqb x0 x) v) eqn:E; [|reflexivity].
      apply existsb_action_In in E. contradiction. }
  assert (Hmem : forall x, In x (sortActions (v ++ fresh)) <-> In x v \/ In x range).
  { intros x. split.
    - intros Hx. apply (Permutation_in _ (Permutation_sym Hperm)) in Hx.
      apply in_app_or in Hx as [Hx|Hx]; [now left|]. apply Hfresh in Hx. tauto.
    - intros Hx. apply (Permutation_in _ Hperm). apply in_or_app.
      destruct (in_dec action_eq_dec x v) as [Hv|Hv]; [now left|].
      right. apply Hfresh. tauto. }
  split; [exact Hsorted|]. split; [exact Hmem|]. split.
  - intros Hv Hr. apply (Permutation_NoDup Hperm).
    apply NoDup_app; [assumption | now apply NoDup_filter |].
    intros x Hx Hx'. apply Hfresh in Hx'. tauto.
  - intros a b Hb Hat Hpos Ha. apply Hmem. now right.
Qed.

(** X14 -- on a store with strictly increasing timestamps
    [RemoveSelectedActions] removes exactly the selected actions from the
    store, which stays strictly increasing, and leaves nothing selected. *)
Theorem RemoveSelectedActions_store (f : Funscript) :
  strictly_increasing (Actions (data f)) = true ->
  let g := RemoveSelectedActions f in
  selection (data g) = [] /\
  strictly_increasing (Actions (data g)) = true /\
  forall x, In x (Actions (data g)) <->
            In x (Actions (data f)) /\ ~ In x (selection (data f)).
Proof.
  rewrite !strictly_increasing_Sorted_at. intros Hs g. subst g.
  split; [reflexivity|]. rewrite Actions_RemoveSelectedActions. split.
  - apply strictly_increasing_Sorted_at. now apply fold_RemoveAction_sorted.
  - apply fold_RemoveAction_In. apply Sorted_at_NoDup in Hs.
    now apply NoDup_map_inv in Hs.
Qed.

Lemma RemoveSelectedActions_store_witness :
  let v := [mkAction 0 0; mkAction 100 50; mkAction 200 100] in
  let f := mkFunscript (mkData v [mkAction 100 50]) [] true false false in
  strictly_increasing (Actions (data f)) = true /\
  data (RemoveSelectedActions f) = mkData [mkAction 0 0; mkAction 200 100] [].
Proof.
  intros v f. split; [reflexivity|].
  destruct (RemoveSelectedActions_store f eq_refl) as (Hsel & _ & _).
  destruct (data (RemoveSelectedActions f)) as [acts sel] eqn:E.
  simpl in Hsel. subst sel. f_equal.
  change acts with (Actions (mkData acts [])). rewrite <- E. reflexivity.
Defined.

(** ** Selecting single actions *)

Lemma IsSelected_In f a : IsSelected f a = true <-> In a (selection (data f)).
Proof.
  unfold IsSelected.
  destruct (find_action_split a (selection (data f)))
    as [[E Hn]|(v1 & v2 & Hv & E & _)]; rewrite E.
  - rewrite Nat.ltb_irrefl. split; [discriminate | contradiction].
  - split.
    + intros _. rewrite Hv. apply in_or_app. right. now left.
    + intros _. apply Nat.ltb_lt. rewrite Hv, length_app. simpl. lia.
Qed.

Lemma IsSelected_toggle_data a f :
  fst (ToggleSelection a f) = negb (IsSelected f a).
Proof. reflexivity. Qed.

(** X15 -- [ToggleSelection] flips the selection state of exactly one
    action.  On a selection without repeated entries it returns the new
    state of the action, which is the opposite of the old one; every other
    action keeps its state, the store is untouched, and toggling twice
    gives back the selected set; an action that was not selected is
    appended and a second toggle restores the selection vector itself. *)
Theorem ToggleSelection_flips (a : FunscriptAction) (f : Funscript) :
  NoDup (selection (data f)) ->
  let g := snd (ToggleSelection a f) in
  fst (ToggleSelection a f) = negb (IsSelected f a) /\
  IsSelected g a = negb (IsSelected f a) /\
  (forall x, x <> a ->
             (In x (selection (data g)) <-> In x (selection (data f)))) /\
  Actions (data g) = Actions (data f) /\
  (forall x, In x (selection (data (snd (ToggleSelection a g)))) <->
             In x (selection (data f))) /\
  (~ In a (selection (data f)) ->
   selection (data (snd (ToggleSelection a g))) = selection (data f)).
Proof.
  intros Hnd g.
  assert (Eg : selection (data g) = toggle a (selection (data f)))
    by (subst g; now rewrite ToggleSelection_data).
  assert (Eg2 : selection (data (snd (ToggleSelection a g))) =
                toggle a (toggle a (selection (data f))))
    by (rewrite ToggleSelection_data; cbn [selection]; now rewrite Eg).
  assert (Ea : Actions (data g) = Actions (data f))
    by (subst g; now rewrite ToggleSelection_data).
  rewrite Eg2. clearbody g.
  destruct (toggle_NoDup a _ Hnd) as [Hnd1 Hin1].
  destruct (toggle_NoDup a _ Hnd1) as [_ Hin2].
  split; [reflexivity|]. split; [|split; [|split; [|split]]].
  - destruct (IsSelected f a) eqn:Hsel; simpl.
    + apply not_true_is_false. intros H. apply IsSelected_In in H.
      rewrite Eg in H.
      apply Hin1 in H as [[_ Hne]|[_ Hn]]; [congruence|].
      apply IsSelected_In in Hsel. contradiction.
    + apply IsSelected_In. rewrite Eg.
      apply Hin1. right. split; [reflexivity|].
      intros H. apply IsSelected_In in H. congruence.
  - intros x Hne. rewrite Eg, Hin1. tauto.
  - exact Ea.
  - intros x. rewrite Hin2, (Hin1 x), (Hin1 a).
    destruct (action_eq_dec x a) as [Heq|Hne],
             (in_dec action_eq_dec a (selection (data f)));
      try subst x; intuition congruence.
  - intros Hn. rewrite (toggle_absent a _ Hn). unfold toggle.
    destruct (find_action_split a (selection (data f) ++ [a]))
      as [[_ Hn']|(v1 & v2 & Hv & E & Hn1)].
    + destruct Hn'. apply in_or_app. right. now left.
    + rewrite E.
      assert (v1 = selection (data f) /\ v2 = []) as [-> ->].
      { clear E Eg Eg2 Hin1 Hin2 Hnd1 Hnd. revert v1 Hv Hn1 Hn.
        induction (selection (data f)) as [|y l IH]; intros v1 Hv Hn1 Hn.
        - destruct v1 as [|z v1]; simpl in Hv.
          + injection Hv as <-. auto.
          + injection Hv as <- Hv. now destruct v1.
        - destruct v1 as [|z v1]; simpl in Hv.
          + injection Hv as -> _. destruct Hn. now left.
          + injection Hv as <- Hv.
            destruct (IH v1 Hv) as [-> ->]; auto.
            * intros H. apply Hn1. now right.
            * intros H. apply Hn. now right. }
      replace (length (selection (data f)) <?
               length (selection (data f) ++ [a]))%nat with true.
      * rewrite erase_at_app. apply app_nil_r.
      * symmetry. apply Nat.ltb_lt. rewrite length_app. simpl. lia.
Qed.

Lemma ToggleSelection_flips_witness :
  let f := mkFunscript (mkData [mkAction 0 0] [mkAction 0 0])
                       [] true false false in
  NoDup (selection (data f)) /\
  selection (data (snd (ToggleSelection (mkAction 5 5)
                          (snd (ToggleSelection (mkAction 5 5) f))))) =
  selection (data f).
Proof.
  intros f.
  assert (Hnd : NoDup (selection (data f)))
    by (simpl; repeat constructor; intros []).
  split; [exact Hnd|].
  destruct (ToggleSelection_flips (mkAction 5 5) f Hnd) as (_ & _ & _ & _ & _ & H).
  apply H. simpl. intuition discriminate.
Defined.

Lemma SetSelection_true_data a f :
  data (SetSelection a true f) =
  mkData (Actions (data f))
         (if IsSelected f a then selection (data f)
          else sortActions (selection (data f) ++ [a])).
Proof.
  unfold SetSelection, IsSelected.
  destruct (_ <? _)%nat; simpl; now destruct (data f).
Qed.

Lemma SetSelection_false_data a f :
  data (SetSelection a false f) =
  mkData (Actions (data f))
         (if IsSelected f a
          then erase_at (find_if (fun x => action_eqb x a) (selection (data f)))
                        (selection (data f))
          else selection (data f)).
Proof.
  unfold SetSelection, IsSelected.
  destruct (_ <? _)%nat; simpl; now destruct (data f).
Qed.

Lemma SetSelection_false_In a f :
  NoDup (selection (data f)) ->
  NoDup (selection (data (SetSelection a false f))) /\
  forall x, In x (selection (data (SetSelection a false f))) <->
            In x (selection (data f)) /\ x <> a.
Proof.
  intros Hnd. rewrite SetSelection_false_data. simpl. unfold IsSelected.
  destruct (find_action_split a (selection (data f)))
    as [[E Hn]|(v1 & v2 & Hv & E & Hn1)]; rewrite E.
  - rewrite Nat.ltb_irrefl. split; [assumption|].
    intros x. split; [|tauto]. intros Hx. split; [assumption | congruence].
  - rewrite Hv in Hnd |- *.
    replace (length v1 <? length (v1 ++ a :: v2))%nat with true.
    2:{ symmetry. apply Nat.ltb_lt. rewrite length_app. simpl. lia. }
    rewrite erase_at_app.
    pose proof (NoDup_remove_1 _ _ _ Hnd) as Hnd'.
    pose proof (NoDup_remove_2 _ _ _ Hnd) as Hn.
    split; [assumption|].
    intros x. rewrite !in_app_iff. simpl. split.
    + intros Hx. split; [tauto|]. intros ->. apply Hn, in_or_app. tauto.
    + intros [[Hx|[<-|Hx]] Hne]; tauto.
Qed.

(** X16 -- [SetSelection(action, selected)] sets the selection state of one
    action.  With [true] the action is selected afterwards and nothing else
    changes state; with [false], on a selection without repeated entries,
    the action is not selected afterwards and nothing else changes state.
    The store is untouched, and a repeated call changes nothing. *)
Theorem SetSelection_sets (a : FunscriptAction) (f : Funscript) :
  (forall x, In x (selection (data (SetSelection a true f))) <->
             x = a \/ In x (selection (data f))) /\
  (NoDup (selection (data f)) ->
   forall x, In x (selection (data (SetSelection a false f))) <->
             In x (selection (data f)) /\ x <> a) /\
  (forall b, Actions (data (SetSelection a b f)) = Actions (data f)) /\
  SetSelection a true (SetSelection a true f) = SetSelection a true f /\
  (NoDup (selection (data f)) ->
   SetSelection a false (SetSelection a false f) = SetSelection a false f).
Proof.
  assert (Htrue : forall x, In x (selection (data (SetSelection a true f))) <->
                            x = a \/ In x (selection (data f))).
  { intros x. rewrite SetSelection_true_data. simpl.
    destruct (IsSelected f a) eqn:Hsel.
    - apply IsSelected_In in Hsel. split; [tauto|]. intros [->|Hx]; assumption.
    - destruct (sortActions_spec (selection (data f) ++ [a])) as [_ Hperm].
      split.
      + intros Hx. apply (Permutation_in _ (Permutation_sym Hperm)) in Hx.
        apply in_app_or in Hx as [Hx|[<-|[]]]; auto.
      + intros Hx. apply (Permutation_in _ Hperm). apply in_or_app.
        destruct Hx as [->|Hx]; [right; now left | now left]. }
  split; [exact Htrue|]. split; [|split; [|split]].
  - intros Hnd. apply SetSelection_false_In. exact Hnd.
  - intros [|]; [rewrite SetSelection_true_data | rewrite SetSelection_false_data];
      reflexivity.
  - assert (Hsel : IsSelected (SetSelection a true f) a = true).
    { apply IsSelected_In. apply Htrue. now left. }
    unfold SetSelection at 1. unfold IsSelected in Hsel. rewrite Hsel. simpl.
    unfold SetSelection. now destruct (_ <? _)%nat.
  - intros Hnd.
    assert (Hsel : IsSelected (SetSelection a false f) a = false).
    { apply not_true_is_false. intros H. apply IsSelected_In in H.
      apply (SetSelection_false_In a f Hnd) in H. tauto. }
    unfold SetSelection at 1. unfold IsSelected in Hsel. rewrite Hsel. simpl.
    unfold SetSelection. now destruct (_ <? _)%nat.
Qed.

Lemma SetSelection_all_loop (unsafe : bool) (l : list FunscriptAction) :
  forall g : Funscript,
  data (fold_left
          (fun g action =>
             if unsafe then set_selection (selection (data g) ++ [action]) g
             else
               let v := Actions (data g) in
               if (find_if (fun x => action_eqb x action) v <? length v)%nat
               then set_selection (selection (data g) ++ [action]) g
               else g) l g) =
  mkData (Actions (data g))
         (selection (data g) ++
          filter (fun action =>
                    unsafe
                    || (find_if (fun x => action_eqb x action) (Actions (data g))
                        <? length (Actions (data g)))%nat) l).
Proof.
  induction l as [|a l IH]; intros g; simpl.
  - rewrite app_nil_r. now destruct (data g).
  - rewrite IH. destruct unsafe; simpl.
    + now rewrite <- app_assoc.
    + destruct (_ <? _)%nat; simpl; [now rewrite <- app_assoc | reflexivity].
Qed.

(** X17 -- [SetSelection(vector, unsafe)] replaces the selection.  In the
    safe mode the new selection holds exactly the listed actions that have a
    value-equal action in the store, so every selected action is in the
    store; in the unsafe mode it holds all listed actions.  In both modes
    the former selection is dropped, the result is in ascending timestamp
    order and the store is untouched. *)
Theorem SetSelection_all_replaces (l : list FunscriptAction) (f : Funscript) :
  (forall x, In x (selection (data (SetSelection_all l false f))) <->
             In x l /\ In x (Actions (data f))) /\
  (forall x, In x (selection (data (SetSelection_all l true f))) <-> In x l) /\
  (forall unsafe,
     Sorted_le (selection (data (SetSelection_all l unsafe f))) /\
     Actions (data (SetSelection_all l unsafe f)) = Actions (data f)).
Proof.
  assert (Hsel : forall unsafe,
            selection (data (SetSelection_all l unsafe f)) =
            sortActions
              (filter (fun action =>
                         unsafe
                         || (find_if (fun x => action_eqb x action)
                                     (Actions (data f))
                             <? length (Actions (data f)))%nat) l)).
  { intros unsafe. unfold SetSelection_all, sortSelection. simpl.
    now rewrite SetSelection_all_loop. }
  assert (Hmem : forall unsafe x,
            In x (selection (data (SetSelection_all l unsafe f))) <->
            In x l /\
            unsafe || (find_if (fun y => action_eqb y x) (Actions (data f))
                       <? length (Actions (data f)))%nat = true).
  { intros unsafe x. rewrite Hsel.
    set (p := fun action =>
                unsafe
                || (find_if (fun y => action_eqb y action) (Actions (data f))
                    <? length (Actions (data f)))%nat).
    destruct (sortActions_spec (filter p l)) as [_ Hperm].
    split; intros Hx.
    - apply (Permutation_in _ (Permutation_sym Hperm)) in Hx.
      apply filter_In in Hx. exact Hx.
    - apply (Permutation_in _ Hperm). apply filter_In. exact Hx. }
  split; [|split].
  - intros x. rewrite Hmem. simpl. rewrite Nat.ltb_lt, find_if_found.
    split; intros [Hx Hin]; (split; [assumption|]).
    + destruct Hin as (y & Hy & Heq). apply action_eqb_eq in Heq. now subst.
    + exists x. split; [assumption | now apply action_eqb_eq].
  - intros x. rewrite Hmem. simpl. tauto.
  - intros unsafe. split.
    + rewrite Hsel. apply sortActions_spec.
    + unfold SetSelection_all, sortSelection. simpl.
      now rewrite SetSelection_all_loop.
Qed.

(** ** Selecting the extrema *)

Lemma top_deselect_generic v : top_deselect v = extremum_deselect Z.ltb v.
Proof.
  induction v as [|p v IH]; [reflexivity|].
  destruct v as [|c [|n v]]; try reflexivity.
  change (top_deselect (p :: c :: n :: v))
    with (let m1 := if pos p <? pos c then p else c in
          let m2 := if pos m1 <? pos n then m1 else n in
          (m1 :: if at_ m1 =? at_ m2 then [] else [m2])
            ++ top_deselect (c :: n :: v)).
  change (extremum_deselect Z.ltb (p :: c :: n :: v))
    with (let m1 := if pos p <? pos c then p else c in
          let m2 := if pos m1 <? pos n then m1 else n in
          (m1 :: if at_ m1 =? at_ m2 then [] else [m2])
            ++ extremum_deselect Z.ltb (c :: n :: v)).
  now rewrite IH.
Qed.

Lemma bottom_deselect_generic v :
  bottom_deselect v = extremum_deselect (fun x y => y <? x) v.
Proof.
  induction v as [|p v IH]; [reflexivity|].
  destruct v as [|c [|n v]]; try reflexivity.
  change (bottom_deselect (p :: c :: n :: v))
    with (let m1 := if pos c <? pos p then p else c in
          let m2 := if pos n <? pos m1 then m1 else n in
          (m1 :: if at_ m1 =? at_ m2 then [] else [m2])
            ++ bottom_deselect (c :: n :: v)).
  change (extremum_deselect (fun x y => y <? x) (p :: c :: n :: v))
    with (let m1 := if pos c <? pos p then p else c in
          let m2 := if pos n <? pos m1 then m1 else n in
          (m1 :: if at_ m1 =? at_ m2 then [] else [m2])
            ++ extremum_deselect (fun x y => y <? x) (c :: n :: v)).
  now rewrite IH.
Qed.

Lemma NoDup_nth_error_same {A : Type} (v : list A) i j x :
  NoDup v -> nth_error v i = Some x -> nth_error v j = Some x -> i = j.
Proof.
  intros Hnd Hi Hj. rewrite NoDup_nth_error in Hnd. apply Hnd.
  - apply nth_error_Some. congruence.
  - congruence.
Qed.

Section Extremum.
Variable lt : Z -> Z -> bool.
Hypothesis lt_asym : forall x y, lt x y = true -> lt y x = false.
Hypothesis lt_trans : forall x y z, lt x y = true -> lt y z = true -> lt x z = true.

Lemma extremum_deselect_step p c n v :
  extremum_deselect lt (p :: c :: n :: v) =
  (let m1 := if lt (pos p) (pos c) then p else c in
   let m2 := if lt (pos m1) (pos n) then m1 else n in
   m1 :: if at_ m1 =? at_ m2 then [] else [m2])
    ++ extremum_deselect lt (c :: n :: v).
Proof. reflexivity. Qed.

(** Every entry of the [deselect] vector comes from a triple of
    consecutive selected actions. *)
Lemma extremum_deselect_In x v :
  In x (extremum_deselect lt v) ->
  exists j p c n,
    consecutive v j p c n /\
    let m1 := if lt (pos p) (pos c) then p else c in
    x = m1 \/ x = (if lt (pos m1) (pos n) then m1 else n).
Proof.
  induction v as [|p v IH]; [intros []|].
  destruct v as [|c [|n v]]; [intros [] | intros [] |].
  rewrite extremum_deselect_step. intros Hx. apply in_app_or in Hx as [Hx|Hx].
  - exists 0%nat, p, c, n. split; [repeat split|].
    cbv zeta. destruct Hx as [<-|Hx]; [now left|].
    destruct (at_ _ =? at_ _); [destruct Hx|].
    destruct Hx as [<-|[]]. now right.
  - destruct (IH Hx) as (j & p' & c' & n' & (H1 & H2 & H3) & Hm).
    exists (S j), p', c', n'. split; [repeat split; assumption | exact Hm].
Qed.

(** The middle entry of a triple is in the vector when it does not beat
    its predecessor. *)
Lemma extremum_deselect_low v : forall i p c n,
  consecutive v i p c n -> lt (pos p) (pos c) = false ->
  In c (extremum_deselect lt v).
Proof.
  induction v as [|p0 v IH]; intros i p c n (H1 & H2 & H3) Hlt.
  - now destruct i.
  - destruct v as [|c0 [|n0 v]].
    + destruct i as [|[|i]]; discriminate.
    + destruct i as [|[|i]]; discriminate.
    + rewrite extremum_deselect_step. apply in_or_app. destruct i as [|i].
      * simpl in H1, H2, H3. injection H1 as <-. injection H2 as <-.
        left. rewrite Hlt. now left.
      * right. apply (IH i p c n); [|assumption]. repeat split; assumption.
Qed.

(** An interior entry that beats both neighbours is never in the
    vector. *)
Lemma extremum_deselect_peak v i p c n :
  NoDup v -> consecutive v i p c n ->
  lt (pos p) (pos c) = true -> lt (pos n) (pos c) = true ->
  ~ In c (extremum_deselect lt v).
Proof.
  intros Hnd (H1 & H2 & H3) Hp Hn Hin.
  apply extremum_deselect_In in Hin
    as (j & p' & c' & n' & (J1 & J2 & J3) & Hm). cbv zeta in Hm.
  assert (Hm1 : c <> (if lt (pos p') (pos c') then p' else c')).
  { destruct (lt (pos p') (pos c')) eqn:E; intros ->.
    - (* the predecessor of the triple is [c] *)
      assert (j = S i) by (apply (NoDup_nth_error_same v j (S i) p' Hnd); assumption).
      subst j. rewrite H3 in J2. injection J2 as <-.
      rewrite (lt_asym _ _ Hn) in E. discriminate.
    - (* the middle of the triple is [c] *)
      assert (S j = S i) by (apply (NoDup_nth_error_same v (S j) (S i) c' Hnd); assumption).
      assert (j = i) by lia. subst j.
      rewrite H1 in J1. injection J1 as <-. congruence. }
  destruct Hm as [Hm|Hm]; [contradiction|].
  destruct (lt (pos (if lt (pos p') (pos c') then p' else c')) (pos n')) eqn:E2;
    [contradiction|].
  subst n'.
  assert (S (S j) = S i) by (apply (NoDup_nth_error_same v _ _ c Hnd); assumption).
  assert (i = S j) by lia. subst i.
  rewrite H1 in J2. injection J2 as <-.
  destruct (lt (pos p') (pos p)) eqn:E.
  - rewrite (lt_trans _ _ _ E Hp) in E2. discriminate.
  - congruence.
Qed.

End Extremum.

Lemma fold_SetSelection_false l : forall f,
  NoDup (selection (data f)) ->
  let g := fold_left (fun g act => SetSelection act false g) l f in
  NoDup (selection (data g)) /\
  Actions (data g) = Actions (data f) /\
  forall x, In x (selection (data g)) <->
            In x (selection (data f)) /\ ~ In x l.
Proof.
  induction l as [|a l IH]; intros f Hnd; simpl.
  - split; [assumption|]. split; [reflexivity|]. intros x. tauto.
  - destruct (SetSelection_false_In a f Hnd) as [Hnd' Hin].
    destruct (IH _ Hnd') as (Hnd'' & Ha & Hin').
    split; [assumption|]. split.
    + rewrite Ha, SetSelection_false_data. reflexivity.
    + intros x. rewrite Hin', Hin. intuition congruence.
Qed.

(** What both extremum selections do, over their comparison. *)
Lemma extremum_selection lt deselect (f g : Funscript) :
  (forall x y, lt x y = true -> lt y x = false) ->
  (forall x y z, lt x y = true -> lt y z = true -> lt x z = true) ->
  deselect = extremum_deselect lt (selection (data f)) ->
  g = (if (length (selection (data f)) <? 3)%nat then f
       else NotifySelectionChanged
              (fold_left (fun g act => SetSelection act false g) deselect f)) ->
  NoDup (selection (data f)) ->
  (forall x, In x (selection (data g)) -> In x (selection (data f))) /\
  (forall i p c n,
     consecutive (selection (data f)) i p c n ->
     lt (pos p) (pos c) = true -> lt (pos n) (pos c) = true ->
     In c (selection (data g))) /\
  (forall i p c n,
     consecutive (selection (data f)) i p c n ->
     lt (pos p) (pos c) = false -> ~ In c (selection (data g))) /\
  Actions (data g) = Actions (data f) /\
  ((length (selection (data f)) < 3)%nat -> g = f).
Proof.
  intros Hasym Htrans -> -> Hnd.
  destruct (length (selection (data f)) <? 3)%nat eqn:Hlen.
  - apply Nat.ltb_lt in Hlen.
    assert (Hno : forall i p c n, ~ consecutive (selection (data f)) i p c n).
    { intros i p c n (_ & _ & H3).
      assert (S (S i) < length (selection (data f)))%nat
        by (apply nth_error_Some; congruence). lia. }
    repeat split; auto.
    + intros i p c n Hc. now destruct (Hno i p c n).
    + intros i p c n Hc. now destruct (Hno i p c n).
  - apply Nat.ltb_ge in Hlen.
    destruct (fold_SetSelection_false
                (extremum_deselect lt (selection (data f))) f Hnd)
      as (_ & Ha & Hin).
    cbn [NotifySelectionChanged data]. repeat split.
    + intros x Hx. now apply Hin in Hx.
    + intros i p c n Hc Hp Hn. apply Hin. split.
      * destruct Hc as (_ & H2 & _). now apply nth_error_In in H2.
      * now apply (extremum_deselect_peak lt Hasym Htrans _ i p c n).
    + intros i p c n Hc Hp Hx. apply Hin in Hx as [_ Hx]. apply Hx.
      now apply (extremum_deselect_low lt _ i p c n).
    + exact Ha.
    + lia.
Qed.

(** X18 -- [SelectTopActions] on a selection without repeated entries only
    deselects: it keeps every selected action that is strictly higher than
    both its selected neighbours, drops every selected action with a
    predecessor and a successor that is not higher than its predecessor,
    leaves the store alone, and does nothing on fewer than three selected
    actions. *)
Theorem SelectTopActions_keeps_peaks (f : Funscript) :
  NoDup (selection (data f)) ->
  let g := SelectTopActions f in
  (forall x, In x (selection (data g)) -> In x (selection (data f))) /\
  (forall i p c n,
     consecutive (selection (data f)) i p c n ->
     pos p < pos c -> pos n < pos c -> In c (selection (data g))) /\
  (forall i p c n,
     consecutive (selection (data f)) i p c n ->
     pos c <= pos p -> ~ In c (selection (data g))) /\
  Actions (data g) = Actions (data f) /\
  ((length (selection (data f)) < 3)%nat -> g = f).
Proof.
  intros Hnd g.
  destruct (extremum_selection Z.ltb (top_deselect (selection (data f))) f g)
    as (H1 & H2 & H3 & H4 & H5); try assumption.
  - intros x y H. apply Z.ltb_lt in H. apply Z.ltb_ge. lia.
  - intros x y z Hx Hy. apply Z.ltb_lt in Hx, Hy. apply Z.ltb_lt. lia.
  - apply top_deselect_generic.
  - reflexivity.
  - repeat split; try assumption.
    + intros i p c n Hc Hp Hn. apply (H2 i p c n Hc); now apply Z.ltb_lt.
    + intros i p c n Hc Hp. apply (H3 i p c n Hc). apply Z.ltb_ge. lia.
Qed.

Lemma SelectTopActions_keeps_peaks_witness :
  let sel := [mkAction 0 10; mkAction 100 90; mkAction 200 20; mkAction 300 50] in
  let f := mkFunscript (mkData sel sel) [] true false false in
  NoDup (selection (data f)) /\
  In (mkAction 100 90) (selection (data (SelectTopActions f))) /\
  ~ In (mkAction 200 20) (selection (data (SelectTopActions f))).
Proof.
  intros sel f.
  assert (Hnd : NoDup (selection (data f)))
    by (simpl; repeat constructor; simpl; intuition discriminate).
  split; [exact Hnd|].
  destruct (SelectTopActions_keeps_peaks f Hnd) as (_ & Hpeak & Hlow & _).
  split.
  - apply (Hpeak 0%nat (mkAction 0 10) (mkAction 100 90) (mkAction 200 20));
      [repeat split | simpl; lia | simpl; lia].
  - apply (Hlow 1%nat (mkAction 100 90) (mkAction 200 20) (mkAction 300 50));
      [repeat split | simpl; lia].
Defined.

(** X19 -- [SelectBottomActions] on a selection without repeated entries
    only deselects: it keeps every selected action that is strictly lower
    than both its selected neighbours, drops every selected action with a
    predecessor and a successor that is not lower than its predecessor,
    leaves the store alone, and does nothing on fewer than three selected
    actions. *)
Theorem SelectBottomActions_keeps_troughs (f : Funscript) :
  NoDup (selection (data f)) ->
  let g := SelectBottomActions f in
  (forall x, In x (selection (data g)) -> In x (selection (data f))) /\
  (forall i p c n,
     consecutive (selection (data f)) i p c n ->
     pos c < pos p -> pos c < pos n -> In c (selection (data g))) /\
  (forall i p c n,
     consecutive (selection (data f)) i p c n ->
     pos p <= pos c -> ~ In c (selection (data g))) /\
  Actions (data g) = Actions (data f) /\
  ((length (selection (data f)) < 3)%nat -> g = f).
Proof.
  intros Hnd g.
  destruct (extremum_selection (fun x y => y <? x)
              (bottom_deselect (selection (data f))) f g)
    as (H1 & H2 & H3 & H4 & H5); try assumption.
  - intros x y H. apply Z.ltb_lt in H. apply Z.ltb_ge. lia.
  - intros x y z Hx Hy. apply Z.ltb_lt in Hx, Hy. apply Z.ltb_lt. lia.
  - apply bottom_deselect_generic.
  - reflexivity.
  - repeat split; try assumption.
    + intros i p c n Hc Hp Hn. apply (H2 i p c n Hc); now apply Z.ltb_lt.
    + intros i p c n Hc Hp. apply (H3 i p c n Hc). apply Z.ltb_ge. lia.
Qed.

Lemma SelectBottomActions_keeps_troughs_witness :
  let sel := [mkAction 0 10; mkAction 100 90; mkAction 200 20; mkAction 300 50] in
  let f := mkFunscript (mkData sel sel) [] true false false in
  NoDup (selection (data f)) /\
  In (mkAction 200 20) (selection (data (SelectBottomActions f))) /\
  ~ In (mkAction 100 90) (selection (data (SelectBottomActions f))).
Proof.
  intros sel f.
  assert (Hnd : NoDup (selection (data f)))
    by (simpl; repeat constructor; simpl; intuition discriminate).
  split; [exact Hnd|].
  destruct (SelectBottomActions_keeps_troughs f Hnd) as (_ & Htrough & Hhigh & _).
  split.
  - apply (Htrough 1%nat (mkAction 100 90) (mkAction 200 20) (mkAction 300 50));
      [repeat split | simpl; lia | simpl; lia].
  - apply (Hhigh 0%nat (mkAction 0 10) (mkAction 100 90) (mkAction 200 20));
      [repeat split | simpl; lia].
Defined.

Lemma extremum_deselect_short lt v :
  (length v < 3)%nat -> extremum_deselect lt v = [].
Proof. destruct v as [|p [|c [|n v]]]; simpl; try reflexivity; lia. Qed.

Lemma SelectTopActions_In (g : Funscript) x :
  NoDup (selection (data g)) ->
  In x (selection (data (SelectTopActions g))) <->
  In x (selection (data g)) /\ ~ In x (top_deselect (selection (data g))).
Proof.
  intros Hnd. unfold SelectTopActions.
  destruct (length (selection (data g)) <? 3)%nat eqn:Hlen.
  - apply Nat.ltb_lt in Hlen.
    rewrite top_deselect_generic, extremum_deselect_short by assumption.
    simpl. tauto.
  - destruct (fold_SetSelection_false (top_deselect (selection (data g))) g Hnd)
      as (_ & _ & Hin).
    cbn [NotifySelectionChanged data]. apply Hin.
Qed.

Lemma SelectBottomActions_In (g : Funscript) x :
  NoDup (selection (data g)) ->
  In x (selection (data (SelectBottomActions g))) <->
  In x (selection (data g)) /\ ~ In x (bottom_deselect (selection (data g))).
Proof.
  intros Hnd. unfold SelectBottomActions.
  destruct (length (selection (data g)) <? 3)%nat eqn:Hlen.
  - apply Nat.ltb_lt in Hlen.
    rewrite bottom_deselect_generic, extremum_deselect_short by assumption.
    simpl. tauto.
  - destruct (fold_SetSelection_false (bottom_deselect (selection (data g))) g Hnd)
      as (_ & _ & Hin).
    cbn [NotifySelectionChanged data]. apply Hin.
Qed.

Lemma Actions_SelectTopActions g :
  NoDup (selection (data g)) ->
  Actions (data (SelectTopActions g)) = Actions (data g).
Proof.
  intros Hnd. unfold SelectTopActions.
  destruct (_ <? 3)%nat; [reflexivity|].
  now destruct (fold_SetSelection_false (top_deselect (selection (data g))) g Hnd)
    as (_ & Ha & _).
Qed.

Lemma Actions_SelectBottomActions g :
  NoDup (selection (data g)) ->
  Actions (data (SelectBottomActions g)) = Actions (data g).
Proof.
  intros Hnd. unfold SelectBottomActions.
  destruct (_ <? 3)%nat; [reflexivity|].
  now destruct (fold_SetSelection_false (bottom_deselect (selection (data g))) g Hnd)
    as (_ & Ha & _).
Qed.

(** X20 -- [SelectMidActions] on three or more selected actions without
    repeated entries keeps exactly the selected actions that neither
    [SelectTopActions] nor [SelectBottomActions] would keep, in ascending
    timestamp order; the store is untouched, and on fewer than three
    selected actions nothing changes. *)
Theorem SelectMidActions_complement (f : Funscript) :
  NoDup (selection (data f)) ->
  let g := SelectMidActions f in
  ((3 <= length (selection (data f)))%nat ->
   Sorted_le (selection (data g)) /\
   forall x, In x (selection (data g)) <->
             In x (selection (data f)) /\
             ~ In x (selection (data (SelectTopActions f))) /\
             ~ In x (selection (data (SelectBottomActions f)))) /\
  Actions (data g) = Actions (data f) /\
  ((length (selection (data f)) < 3)%nat -> g = f).
Proof.
  intros Hnd g. subst g. unfold SelectMidActions.
  destruct (length (selection (data f)) <? 3)%nat eqn:Hlen.
  - apply Nat.ltb_lt in Hlen. split; [lia|]. split; reflexivity.
  - apply Nat.ltb_ge in Hlen.
    set (f1 := SelectTopActions f).
    set (g1 := set_selection (selection (data f)) f1).
    set (f2 := SelectBottomActions g1).
    assert (Hg1 : selection (data g1) = selection (data f)) by reflexivity.
    assert (Hnd1 : NoDup (selection (data g1))) by (now rewrite Hg1).
    pose proof (remove_if_erase_from
                  (fun val =>
                     existsb (fun a => action_eqb a val) (selection (data f1))
                     || existsb (fun a => action_eqb a val) (selection (data f2)))
                  (selection (data f))) as Hrm.
    destruct (remove_if _ (selection (data f))) as [w it].
    cbn [NotifySelectionChanged sortSelection set_selection data selection Actions].
    rewrite Hrm. clear Hrm.
    set (mid := filter _ (selection (data f))).
    destruct (sortActions_spec mid) as [Hsorted Hperm].
    assert (Hbottom : forall x, In x (selection (data f2)) <->
                                In x (selection (data (SelectBottomActions f)))).
    { intros x. unfold f2. rewrite !SelectBottomActions_In by assumption.
      now rewrite Hg1. }
    split; [|split].
    + intros _. split; [exact Hsorted|].
      intros x. rewrite <- Hbottom. fold f1. split.
      * intros Hx. apply (Permutation_in _ (Permutation_sym Hperm)) in Hx.
        unfold mid in Hx. apply filter_In in Hx as [Hx Hp].
        apply negb_true_iff, orb_false_iff in Hp as [Ht Hb].
        split; [assumption|]. split; intros Hin;
          apply existsb_action_In in Hin; congruence.
      * intros (Hx & Ht & Hb). apply (Permutation_in _ Hperm).
        unfold mid. apply filter_In. split; [assumption|].
        apply negb_true_iff, orb_false_iff. split; apply not_true_is_false;
          intros Hin; apply existsb_action_In in Hin; contradiction.
    + unfold f2. rewrite Actions_SelectBottomActions by assumption.
      unfold g1. cbn [set_selection data Actions]. unfold f1.
      now apply Actions_SelectTopActions.
    + lia.
Qed.

Lemma SelectMidActions_complement_witness :
  let sel := [mkAction 0 10; mkAction 100 50; mkAction 200 90; mkAction 300 20] in
  let f := mkFunscript (mkData sel sel) [] true false false in
  NoDup (selection (data f)) /\
  selection (data (SelectMidActions f)) = [mkAction 100 50] /\
  Actions (data (SelectMidActions f)) = Actions (data f).
Proof.
  intros sel f.
  assert (Hnd : NoDup (selection (data f)))
    by (simpl; repeat constructor; simpl; intuition discriminate).
  split; [exact Hnd|]. split; [reflexivity|].
  now destruct (SelectMidActions_complement f Hnd) as (_ & Ha & _).
Defined.

(** ** Composition of selections *)

Lemma SelectTime_false_data from_ms to_ms f :
  Sorted_at (Actions (data f)) ->
  data (SelectTime from_ms to_ms false f) =
  mkData (Actions (data f))
         (sortActions
            (fold_left (fun s a => toggle a s)
                       (filter (in_interval from_ms to_ms) (Actions (data f)))
                       (selection (data f)))).
Proof.
  intros Hs. unfold SelectTime. simpl.
  now rewrite (SelectTime_loop_data from_ms to_ms _ f Hs).
Qed.

(** X21 -- [SelectTime] without [clear] undoes itself: on a store with
    strictly increasing timestamps and a selection without repeated
    entries, selecting the same interval twice leaves exactly the actions
    selected that were selected before, and the store as it was. *)
Theorem SelectTime_twice (from_ms to_ms : Z) (f : Funscript) :
  strictly_increasing (Actions (data f)) = true ->
  NoDup (selection (data f)) ->
  let g := SelectTime from_ms to_ms false (SelectTime from_ms to_ms false f) in
  Actions (data g) = Actions (data f) /\
  forall x, In x (selection (data g)) <-> In x (selection (data f)).
Proof.
  rewrite strictly_increasing_Sorted_at. intros Hs Hnd g. subst g.
  set (f1 := SelectTime from_ms to_ms false f).
  assert (E1 : data f1 = _) by (apply (SelectTime_false_data from_ms to_ms f Hs)).
  assert (Ha1 : Actions (data f1) = Actions (data f)) by (now rewrite E1).
  assert (Hs1 : Sorted_at (Actions (data f1))) by (now rewrite Ha1).
  rewrite (SelectTime_false_data from_ms to_ms f1 Hs1).
  cbn [data Actions selection].
  rewrite Ha1. split; [reflexivity|].
  set (I := filter (in_interval from_ms to_ms) (Actions (data f))) in *.
  assert (HI : NoDup I).
  { apply NoDup_filter. apply Sorted_at_NoDup in Hs.
    now apply NoDup_map_inv in Hs. }
  destruct (fold_toggle_NoDup I _ HI Hnd) as [Hnd1 Hin1].
  assert (Esel1 : selection (data f1) =
                  sortActions (fold_left (fun s a => toggle a s) I
                                         (selection (data f))))
    by (now rewrite E1).
  destruct (sortActions_spec (fold_left (fun s a => toggle a s) I
                                        (selection (data f))))
    as [_ Hperm1].
  assert (Hnd1' : NoDup (selection (data f1)))
    by (rewrite Esel1; now apply (Permutation_NoDup Hperm1)).
  assert (Hmem1 : forall x, In x (selection (data f1)) <->
                            (In x (selection (data f)) /\ ~ In x I) \/
                            (In x I /\ ~ In x (selection (data f)))).
  { intros x. rewrite <- Hin1, Esel1. split; intros Hx.
    - now apply (Permutation_in _ (Permutation_sym Hperm1)).
    - now apply (Permutation_in _ Hperm1). }
  destruct (fold_toggle_NoDup I _ HI Hnd1') as [_ Hin2].
  destruct (sortActions_spec (fold_left (fun s a => toggle a s) I
                                        (selection (data f1))))
    as [_ Hperm2].
  intros x. split.
  - intros Hx. apply (Permutation_in _ (Permutation_sym Hperm2)) in Hx.
    apply Hin2 in Hx. rewrite Hmem1 in Hx.
    destruct (in_dec action_eq_dec x (selection (data f))); tauto.
  - intros Hx. apply (Permutation_in _ Hperm2). apply Hin2. rewrite Hmem1.
    destruct (in_dec action_eq_dec x I); tauto.
Qed.

Lemma SelectTime_twice_witness :
  let f := mkFunscript
             (mkData [mkAction 0 0; mkAction 10 10; mkAction 20 5] [mkAction 0 0])
             [] true false false in
  strictly_increasing (Actions (data f)) = true /\
  forall x,
    In x (selection (data (SelectTime 0 10 false (SelectTime 0 10 false f)))) <->
    In x (selection (data f)).
Proof.
  intros f. split; [reflexivity|].
  apply (SelectTime_twice 0 10 f); [reflexivity|].
  simpl. repeat constructor. intros [].
Defined.

(** ** Inverting the selection *)

Lemma InvertSelection_data f :
  selection (data (InvertSelection f)) =
  map (fun act => mkAction (at_ act) (Int32.abs (Int32.sub (pos act) 100)))
      (selection (data f)) /\
  forall a, In a (selection (data (InvertSelection f))) ->
            In a (Actions (data (InvertSelection f))).
Proof.
  unfold InvertSelection. destruct (selection (data f)) as [|s sel] eqn:E.
  - rewrite E. split; [reflexivity | intros a []].
  - cbn [set_selection data selection Actions]. split; [reflexivity|].
    intros a Ha. apply fold_AddAction_In. now left.
Qed.

Lemma invert_pos p :
  0 <= p <= 100 -> Int32.abs (Int32.sub p 100) = 100 - p.
Proof.
  intros Hp. unfold Int32.abs, Int32.sub.
  rewrite (wrap_small (p - 100)) by (int32_unfold; lia).
  rewrite wrap_small by (int32_unfold; lia). lia.
Qed.

(** X22 -- [InvertSelection] mirrors the selected positions: with selected
    positions between 0 and 100 every selected action keeps its timestamp
    and gets the position [100 - pos], the inverted actions are the new
    selection and are all in the store, and a second inversion gives back
    the original selection. *)
Theorem InvertSelection_mirrors (f : Funscript) :
  (forall a, In a (selection (data f)) -> 0 <= pos a <= 100) ->
  selection (data (InvertSelection f)) =
    map (fun a => mkAction (at_ a) (100 - pos a)) (selection (data f)) /\
  (forall a, In a (selection (data (InvertSelection f))) ->
             In a (Actions (data (InvertSelection f)))) /\
  selection (data (InvertSelection (InvertSelection f))) = selection (data f).
Proof.
  intros Hvalid.
  destruct (InvertSelection_data f) as [E Hin].
  assert (E' : selection (data (InvertSelection f)) =
               map (fun a => mkAction (at_ a) (100 - pos a)) (selection (data f))).
  { rewrite E. apply map_ext_in. intros a Ha. now rewrite invert_pos by auto. }
  split; [exact E'|]. split; [exact Hin|].
  destruct (InvertSelection_data (InvertSelection f)) as [E2 _].
  rewrite E2, E', map_map. rewrite <- (map_id (selection (data f))) at 2.
  apply map_ext_in. intros a Ha. specialize (Hvalid a Ha).
  destruct a as [t p]. cbn [at_ pos] in *.
  rewrite invert_pos by lia. f_equal. lia.
Qed.

Lemma InvertSelection_mirrors_witness :
  let sel := [mkAction 0 30; mkAction 100 0] in
  let f := mkFunscript (mkData [mkAction 0 30; mkAction 50 7; mkAction 100 0] sel)
                       [] true false false in
  (forall a, In a (selection (data f)) -> 0 <= pos a <= 100) /\
  selection (data (InvertSelection f)) = [mkAction 0 70; mkAction 100 100].
Proof.
  intros sel f.
  assert (Hvalid : forall a, In a (selection (data f)) -> 0 <= pos a <= 100).
  { simpl. intros a [<-|[<-|[]]]; simpl; lia. }
  split; [exact Hvalid|].
  destruct (InvertSelection_mirrors f Hvalid) as [E _]. rewrite E. reflexivity.
Defined.

(** ** The event system *)

(** X23 -- [Unsubscribe] goes by the listener alone: it removes the first
    handler registered by the listener, whatever event type that handler
    was subscribed to and whatever event type is passed, keeps the other
    handlers in their order, and fails exactly when the listener has no
    handler. *)
Theorem Unsubscribe_by_listener (event_type l : Z)
        (handlers : list EventHandler) :
  match Unsubscribe event_type l handlers with
  | Some handlers' =>
      exists h1 h h2,
        handlers = h1 ++ h :: h2 /\ listener h = l /\
        (forall x, In x h1 -> listener x <> l) /\
        handlers' = h1 ++ h2
  | None => forall x, In x handlers -> listener x <> l
  end /\
  forall other_type,
    Unsubscribe other_type l handlers = Unsubscribe event_type l handlers.
Proof.
  split; [|reflexivity]. unfold Unsubscribe.
  destruct (find_if_split (fun handler => listener handler =? l) handlers)
    as (h1 & h2 & Hv & Hlen & H1 & H2).
  rewrite <- Hlen. rewrite Forall_forall in H1.
  assert (Hne : forall x, In x h1 -> listener x <> l).
  { intros x Hx. specialize (H1 x Hx). now apply Z.eqb_neq in H1. }
  rewrite Hv. destruct h2 as [|h h2].
  - rewrite app_nil_r, Nat.ltb_irrefl. exact Hne.
  - replace (length h1 <? length (h1 ++ h :: h2))%nat with true.
    2:{ symmetry. apply Nat.ltb_lt. rewrite length_app. simpl. lia. }
    apply Z.eqb_eq in H2. exists h1, h, h2. rewrite erase_at_app. auto.
Qed.

(** X24 -- subscribing and dispatching.  After [Subscribe] an event of the
    subscribed type reaches the handlers it reached before, in the same
    order, and then the new handler; events of other types are dispatched
    as before; and for a listener that had no handler, [Unsubscribe] undoes
    the [Subscribe]. *)
Theorem Subscribe_dispatch (event_type l : Z) (handler : nat)
        (handlers : list EventHandler) :
  PushEvent (Subscribe event_type l handler handlers) event_type =
    PushEvent handlers event_type ++ [handler] /\
  (forall other_type, other_type <> event_type ->
     PushEvent (Subscribe event_type l handler handlers) other_type =
     PushEvent handlers other_type) /\
  ((forall x, In x handlers -> listener x <> l) ->
   forall any_type,
     Unsubscribe any_type l (Subscribe event_type l handler handlers) =
     Some handlers).
Proof.
  unfold PushEvent, Subscribe. split; [|split].
  - rewrite filter_app, map_app. simpl. now rewrite Z.eqb_refl.
  - intros other Hne. rewrite filter_app, map_app. simpl.
    replace (event_type =? other) with false
      by (symmetry; apply Z.eqb_neq; congruence).
    apply app_nil_r.
  - intros Hfresh any_type. unfold Unsubscribe.
    assert (Hit : find_if (fun h => listener h =? l)
                          (handlers ++ [mkHandler event_type l handler]) =
                  length handlers).
    { induction handlers as [|x hs IH]; simpl.
      - now rewrite Z.eqb_refl.
      - replace (listener x =? l) with false.
        + rewrite IH; [reflexivity|]. intros y Hy. apply Hfresh. now right.
        + symmetry. apply Z.eqb_neq. apply Hfresh. now left. }
    rewrite Hit.
    replace (length handlers <?
             length (handlers ++ [mkHandler event_type l handler]))%nat with true.
    + rewrite erase_at_app. now rewrite app_nil_r.
    + symmetry. apply Nat.ltb_lt. rewrite length_app. simpl. lia.
Qed.

(** ** Runs of the properties without a premise of their own *)

Lemma getAction_lookup_witness :
  let v := [mkAction 0 0; mkAction 100 50] in
  let f := mkFunscript (mkData v []) (ActionMap.Update v) false false false in
  strictly_increasing (Actions (data f)) = true /\
  getAction f (mkAction 100 7) = Some 1%nat /\
  exists v1 b v2,
    Actions (data f) = v1 ++ b :: v2 /\ 1%nat = length v1 /\
    at_ b = at_ (mkAction 100 7).
Proof.
  intros v f. split; [reflexivity|]. split; [reflexivity|].
  destruct (getAction_lookup f (mkAction 100 7)) as [_ Hindexed].
  exact (Hindexed eq_refl eq_refl eq_refl).
Defined.

Lemma RemoveAction_by_value_witness :
  let f := mkFunscript (mkData [mkAction 0 0; mkAction 100 50] [])
                       [] false false false in
  ~ In (mkAction 100 7) (Actions (data f)) /\
  RemoveAction (mkAction 100 7) true f = f.
Proof.
  intros f.
  assert (Hn : ~ In (mkAction 100 7) (Actions (data f)))
    by (simpl; intuition discriminate).
  split; [exact Hn|].
  destruct (RemoveAction_by_value (mkAction 100 7) true f) as [Habsent _].
  exact (Habsent Hn).
Defined.

Lemma RemoveActionsInInterval_store_witness :
  let v := [mkAction 0 0; mkAction 100 50; mkAction 200 100] in
  let f := mkFunscript (mkData v []) [] true false false in
  strictly_increasing (Actions (data f)) = true /\
  strictly_increasing (Actions (data (RemoveActionsInInterval 50 150 f))) = true /\
  Actions (data (RemoveActionsInInterval 150 50 f)) = Actions (data f).
Proof.
  intros v f. split; [reflexivity|].
  destruct (RemoveActionsInInterval_store 50 150 f) as (_ & Hsorted & _).
  destruct (RemoveActionsInInterval_store 150 50 f) as (_ & _ & Hempty).
  split; [apply Hsorted; reflexivity | apply Hempty; lia].
Defined.

Lemma AddActionRange_checked_witness :
  let v := [mkAction 0 0; mkAction 100 50] in
  let range := [mkAction 100 50; mkAction 100 7; mkAction 40 1] in
  let f := mkFunscript (mkData v []) [] true false false in
  NoDup v /\ NoDup range /\
  NoDup (Actions (data (AddActionRange range true f))) /\
  In (mkAction 100 7) (Actions (data (AddActionRange range true f))).
Proof.
  intros v range f.
  assert (Hv : NoDup v) by (repeat constructor; simpl; intuition discriminate).
  assert (Hr : NoDup range) by (repeat constructor; simpl; intuition discriminate).
  destruct (AddActionRange_checked range f) as (_ & _ & Hnd & Hsame).
  split; [exact Hv|]. split; [exact Hr|]. split.
  - exact (Hnd Hv Hr).
  - apply (Hsame (mkAction 100 7) (mkAction 100 50)); simpl; auto; lia.
Defined.

Lemma SetSelection_sets_witness :
  let f := mkFunscript
             (mkData [mkAction 0 0; mkAction 100 50]
                     [mkAction 0 0; mkAction 100 50])
             [] true false false in
  NoDup (selection (data f)) /\
  ~ In (mkAction 0 0) (selection (data (SetSelection (mkAction 0 0) false f))) /\
  SetSelection (mkAction 0 0) false (SetSelection (mkAction 0 0) false f) =
  SetSelection (mkAction 0 0) false f.
Proof.
  intros f.
  assert (Hnd : NoDup (selection (data f)))
    by (simpl; repeat constructor; simpl; intuition discriminate).
  destruct (SetSelection_sets (mkAction 0 0) f) as (_ & Hfalse & _ & _ & Hidem).
  split; [exact Hnd|]. split.
  - intros Hin. apply (Hfalse Hnd) in Hin. tauto.
  - exact (Hidem Hnd).
Defined.

Lemma Subscribe_dispatch_witness :
  let handlers := [mkHandler 1 10 0; mkHandler 2 20 1] in
  (forall x, In x handlers -> listener x <> 30) /\
  Unsubscribe 7 30 (Subscribe 1 30 2 handlers) = Some handlers /\
  PushEvent (Subscribe 1 30 2 handlers) 1 = [0%nat; 2%nat].
Proof.
  intros handlers.
  assert (Hfresh : forall x, In x handlers -> listener x <> 30).
  { simpl. intros x [<-|[<-|[]]]; simpl; lia. }
  destruct (Subscribe_dispatch 1 30 2 handlers) as (Hpush & _ & Hundo).
  split; [exact Hfresh|]. split.
  - exact (Hundo Hfresh 7).
  - rewrite Hpush. reflexivity.
Defined.
